(** * StereoAlign: the alignment pipeline of a stereo pair

    A shallow embedding of the TypeScript sources

    - [types.ts]                         (points, steps, options),
    - [services/imageService.ts]         (the geometry transforms),
    - [App.tsx]                          (the pipeline controller and the
                                          point collector),
    - [components/InteractiveCanvas.tsx] (the viewport mapper),

    followed by the properties of the pipeline.

    Numbers.  A JavaScript [number] that holds a coordinate, a ratio or a
    viewport length is a rational [Q] (every finite double is one), with the
    arithmetic exact; the width and height of a canvas are integers [Z]; an
    angle, which comes out of [Math.atan2], is a real [R]. *)

From Stdlib Require Import ZArith QArith Qround Qminmax Qabs Qreals.
From Stdlib Require Import Reals Lra Lia List String.
From Stdlib Require Lqa.
From stdpp Require Import base list.
Import ListNotations.

Open Scope Z_scope.

(** ** The parts of [Math] the sources call *)

Module JsMath.

(** [Math.floor], [Math.ceil], [Math.min] and [Math.abs] on rationals. *)
Definition floor (q : Q) : Z := Qfloor q.
Definition ceil (q : Q) : Z := Qceiling q.
Definition min (a b : Q) : Q := Qmin a b.
Definition abs (q : Q) : Q := Qabs q.

(** [a < b] and [a === b] on numbers, as booleans. *)
Definition lt (a b : Q) : bool := negb (Qle_bool b a).
Definition eq (a b : Q) : bool := Qeq_bool a b.

(** [Math.ceil] on a real: the least integer that is not below [r]. *)
Definition Rceil (r : R) : Z := - Int_part (- r).

(** [Math.atan2 (y, x)] on finite arguments: the angle of the vector
    [(x, y)] in radians, in the half-open interval from [-PI] (excluded)
    to [PI] (included), and [0] for the null vector. *)
Definition atan2 (y x : R) : R :=
  if Rlt_dec 0 x then atan (y / x)
  else if Rlt_dec x 0 then
    if Rle_dec 0 y then (atan (y / x) + PI)%R else (atan (y / x) - PI)%R
  else if Rlt_dec 0 y then (PI / 2)%R
  else if Rlt_dec y 0 then (- (PI / 2))%R
  else 0%R.

End JsMath.

(** ** types.ts *)

Record Point : Type := { x : Q; y : Q }.

Inductive AppStep : Type := UPLOAD | ROTATE | SCALE | CROP | RESULT.

Record Dimensions : Type := { width : Q; height : Q }.

Record ProcessingOptions : Type := {
  assumeEqualTilt : bool;
  assumeEqualZoom : bool;
  assumeEqualFraming : bool;
  rotateLeftImage : bool
}.

(** ** The canvases of the document

    An [HTMLCanvasElement] is an object: two variables can hold the same
    canvas, and [document.createElement ('canvas')] makes one that no
    variable held before.  The store keeps every canvas made so far; a
    reference is the position of the canvas in the store.  A canvas carries
    its two dimensions and, for its bitmap, the drawing calls made on its 2D
    context, oldest first.  [getContext ('2d')] is taken to succeed. *)

Module Dom.

Definition CanvasRef : Type := nat.

Inductive DrawCmd : Type :=
| Translate (tx ty : Q)
| Rotate (angle : R)
| FillStyle (style : string)
| FillRect (rx ry rw rh : Q)
| DrawImage (source : CanvasRef) (dx dy : Q)
| DrawImageScaled (source : CanvasRef) (dx dy dw dh : Q)
| DrawImageCropped (source : CanvasRef) (sx sy sw sh dx dy dw dh : Q).

Record Canvas : Type := {
  width : Z;
  height : Z;
  commands : list DrawCmd
}.

Abbreviation Store := (list Canvas) (only parsing).

(** A computation that reads and extends the store. *)
Definition DOM (A : Type) : Type := Store -> A * Store.

Definition ret {A : Type} (a : A) : DOM A := fun s => (a, s).

Definition bind {A B : Type} (m : DOM A) (k : A -> DOM B) : DOM B :=
  fun s => let (a, s') := m s in k a s'.

(** A canvas just created: 300 by 150, nothing drawn. *)
Definition blank : Canvas := {| width := 300; height := 150; commands := [] |}.

Definition createCanvas : DOM CanvasRef :=
  fun s => (length s, s ++ [blank]).

(** Reading [c.width] and [c.height]. *)
Definition widthOf (s : Store) (c : CanvasRef) : Z :=
  from_option width 0 (s !! c).

Definition heightOf (s : Store) (c : CanvasRef) : Z :=
  from_option height 0 (s !! c).

Definition getWidth (c : CanvasRef) : DOM Z := fun s => (widthOf s c, s).

Definition getHeight (c : CanvasRef) : DOM Z := fun s => (heightOf s c, s).

(** Assigning a dimension also wipes the bitmap. *)
Definition setWidth (c : CanvasRef) (w : Z) : DOM unit :=
  fun s =>
    (tt, alter (fun cv => {| width := w; height := height cv; commands := [] |}) c s).

Definition setHeight (c : CanvasRef) (h : Z) : DOM unit :=
  fun s =>
    (tt, alter (fun cv => {| width := width cv; height := h; commands := [] |}) c s).

Definition draw (c : CanvasRef) (cmd : DrawCmd) : DOM unit :=
  fun s =>
    (tt, alter (fun cv => {| width := width cv; height := height cv;
                             commands := commands cv ++ [cmd] |}) c s).

End Dom.

Declare Scope dom_scope.
Delimit Scope dom_scope with dom.
Notation "v <- m ;; k" := (Dom.bind m (fun v => k))
  (at level 100, m at next level, k at level 200, right associativity) : dom_scope.
Notation "m ;; k" := (Dom.bind m (fun _ => k))
  (at level 100, k at level 200, right associativity) : dom_scope.

(** ** services/imageService.ts *)

Module ImageService.

Import Dom.
Local Open Scope dom_scope.

(** [cloneCanvas]: a new canvas of the given size with the source drawn
    on it at the origin. *)
Definition cloneCanvas (source : CanvasRef) (w h : Q) : DOM CanvasRef :=
  canvas <- createCanvas ;;
  setWidth canvas (JsMath.floor w) ;;
  setHeight canvas (JsMath.floor h) ;;
  draw canvas (DrawImage source 0 0) ;;
  ret canvas.

(** [calculateAngle]: the angle, in degrees, of the line from [p1] to [p2]. *)
Definition calculateAngle (p1 p2 : Point) : R :=
  (JsMath.atan2 (Q2R (y p2 - y p1)) (Q2R (x p2 - x p1)) * (180 / PI))%R.

(** [rotateImage]: the source turned by [angleDegrees] about its centre, on
    a canvas large enough to hold it; a copy when the angle is below a
    hundredth of a degree. *)
Definition rotateImage (source : CanvasRef) (angleDegrees : R) : DOM CanvasRef :=
  if Rlt_dec (Rabs angleDegrees) 0.01 then
    srcW <- getWidth source ;;
    srcH <- getHeight source ;;
    cloneCanvas source (inject_Z srcW) (inject_Z srcH)
  else
    let angleRad := (angleDegrees * PI / 180)%R in
    let absCos := Rabs (cos angleRad) in
    let absSin := Rabs (sin angleRad) in
    srcW <- getWidth source ;;
    srcH <- getHeight source ;;
    let newWidth := JsMath.Rceil (IZR srcW * absCos + IZR srcH * absSin) in
    let newHeight := JsMath.Rceil (IZR srcW * absSin + IZR srcH * absCos) in
    canvas <- createCanvas ;;
    setWidth canvas newWidth ;;
    setHeight canvas newHeight ;;
    draw canvas (Translate (inject_Z newWidth / 2) (inject_Z newHeight / 2)) ;;
    draw canvas (Rotate angleRad) ;;
    draw canvas (DrawImage source (- inject_Z srcW / 2) (- inject_Z srcH / 2)) ;;
    ret canvas.

(** [scaleImage]: the source stretched by [scale]; a copy when the ratio
    is within a thousandth of one. *)
Definition scaleImage (source : CanvasRef) (scale : Q) : DOM CanvasRef :=
  if JsMath.lt (JsMath.abs (scale - 1)) 0.001 then
    srcW <- getWidth source ;;
    srcH <- getHeight source ;;
    cloneCanvas source (inject_Z srcW) (inject_Z srcH)
  else
    srcW <- getWidth source ;;
    srcH <- getHeight source ;;
    let newWidth := JsMath.ceil (inject_Z srcW * scale) in
    let newHeight := JsMath.ceil (inject_Z srcH * scale) in
    canvas <- createCanvas ;;
    setWidth canvas newWidth ;;
    setHeight canvas newHeight ;;
    draw canvas (DrawImageScaled source 0 0 (inject_Z newWidth) (inject_Z newHeight)) ;;
    ret canvas.

(** [cropImagesAligned]: both images cut to one size around a common
    anchor.  [equalZoom] is received and not read. *)
Definition cropImagesAligned (left right : CanvasRef) (pL pR : Point)
    (equalZoom : bool) : DOM (CanvasRef * CanvasRef) :=
  leftW <- getWidth left ;;
  rightW <- getWidth right ;;
  leftH <- getHeight left ;;
  rightH <- getHeight right ;;
  let L_left := x pL in
  let R_left := x pR in
  let cropLeft := JsMath.floor (JsMath.min L_left R_left) in
  let L_right := (inject_Z leftW - x pL)%Q in
  let R_right := (inject_Z rightW - x pR)%Q in
  let cropRight := JsMath.floor (JsMath.min L_right R_right) in
  let L_top := y pL in
  let R_top := y pR in
  let L_bottom := (inject_Z leftH - y pL)%Q in
  let R_bottom := (inject_Z rightH - y pR)%Q in
  let cropTop := JsMath.floor (JsMath.min L_top R_top) in
  let cropBottom := JsMath.floor (JsMath.min L_bottom R_bottom) in
  let finalWidth := cropLeft + cropRight in
  let finalHeight := cropTop + cropBottom in
  let createCropped (source : CanvasRef) (anchor : Point) : DOM CanvasRef :=
    canvas <- createCanvas ;;
    setWidth canvas finalWidth ;;
    setHeight canvas finalHeight ;;
    let srcX := JsMath.floor (x anchor - inject_Z cropLeft) in
    let srcY := JsMath.floor (y anchor - inject_Z cropTop) in
    draw canvas (DrawImageCropped source
                   (inject_Z srcX) (inject_Z srcY)
                   (inject_Z finalWidth) (inject_Z finalHeight)
                   0 0
                   (inject_Z finalWidth) (inject_Z finalHeight)) ;;
    ret canvas in
  newLeft <- createCropped left pL ;;
  newRight <- createCropped right pR ;;
  ret (newLeft, newRight).

(** [mergeSideBySide]: the two images next to each other on black, each
    centred in the common height. *)
Definition mergeSideBySide (left right : CanvasRef) : DOM CanvasRef :=
  canvas <- createCanvas ;;
  lw <- getWidth left ;;
  lh <- getHeight left ;;
  rw <- getWidth right ;;
  rh <- getHeight right ;;
  let leftW := JsMath.floor (inject_Z lw) in
  let leftH := JsMath.floor (inject_Z lh) in
  let rightW := JsMath.floor (inject_Z rw) in
  let rightH := JsMath.floor (inject_Z rh) in
  let outW := leftW + rightW in
  let outH := Z.max leftH rightH in
  setWidth canvas outW ;;
  setHeight canvas outH ;;
  draw canvas (FillStyle "#000") ;;
  draw canvas (FillRect 0 0 (inject_Z outW) (inject_Z outH)) ;;
  let yL := JsMath.floor (inject_Z (outH - leftH) / 2) in
  let yR := JsMath.floor (inject_Z (outH - rightH) / 2) in
  draw canvas (DrawImage left 0 (inject_Z yL)) ;;
  draw canvas (DrawImage right (inject_Z leftW) (inject_Z yR)) ;;
  ret canvas.

End ImageService.

(** ** App.tsx: the pipeline controller and the point collector

    The component's state variables are the fields of one record; the
    canvases they refer to live in [store], and the messages shown with
    [alert] are kept in [alerts], oldest first.  A handler is a function
    from the state it is called in to the state after it. *)

Module App.

Import Dom.

Inductive Side : Type := Left | Right.

Record State : Type := {
  step : AppStep;
  srcL : option CanvasRef;
  srcR : option CanvasRef;
  canvasL : option CanvasRef;
  canvasR : option CanvasRef;
  pointsL : list Point;
  pointsR : list Point;
  pointHistory : list Side;
  options : ProcessingOptions;
  resultCanvas : option CanvasRef;
  quality : Z;
  store : Store;
  alerts : list string
}.

Definition initial : State := {|
  step := UPLOAD;
  srcL := None; srcR := None;
  canvasL := None; canvasR := None;
  pointsL := []; pointsR := []; pointHistory := [];
  options := {| assumeEqualTilt := false; assumeEqualZoom := false;
                assumeEqualFraming := false; rotateLeftImage := false |};
  resultCanvas := None;
  quality := 90;
  store := [];
  alerts := []
|}.

(** The state setters. *)
Definition setStep (v : AppStep) (st : State) : State :=
  {| step := v; srcL := srcL st; srcR := srcR st;
     canvasL := canvasL st; canvasR := canvasR st;
     pointsL := pointsL st; pointsR := pointsR st;
     pointHistory := pointHistory st; options := options st;
     resultCanvas := resultCanvas st; quality := quality st;
     store := store st; alerts := alerts st |}.

Definition setSrcL (v : option CanvasRef) (st : State) : State :=
  {| step := step st; srcL := v; srcR := srcR st;
     canvasL := canvasL st; canvasR := canvasR st;
     pointsL := pointsL st; pointsR := pointsR st;
     pointHistory := pointHistory st; options := options st;
     resultCanvas := resultCanvas st; quality := quality st;
     store := store st; alerts := alerts st |}.

Definition setSrcR (v : option CanvasRef) (st : State) : State :=
  {| step := step st; srcL := srcL st; srcR := v;
     canvasL := canvasL st; canvasR := canvasR st;
     pointsL := pointsL st; pointsR := pointsR st;
     pointHistory := pointHistory st; options := options st;
     resultCanvas := resultCanvas st; quality := quality st;
     store := store st; alerts := alerts st |}.

Definition setCanvasL (v : option CanvasRef) (st : State) : State :=
  {| step := step st; srcL := srcL st; srcR := srcR st;
     canvasL := v; canvasR := canvasR st;
     pointsL := pointsL st; pointsR := pointsR st;
     pointHistory := pointHistory st; options := options st;
     resultCanvas := resultCanvas st; quality := quality st;
     store := store st; alerts := alerts st |}.

Definition setCanvasR (v : option CanvasRef) (st : State) : State :=
  {| step := step st; srcL := srcL st; srcR := srcR st;
     canvasL := canvasL st; canvasR := v;
     pointsL := pointsL st; pointsR := pointsR st;
     pointHistory := pointHistory st; options := options st;
     resultCanvas := resultCanvas st; quality := quality st;
     store := store st; alerts := alerts st |}.

Definition setPointsL (v : list Point) (st : State) : State :=
  {| step := step st; srcL := srcL st; srcR := srcR st;
     canvasL := canvasL st; canvasR := canvasR st;
     pointsL := v; pointsR := pointsR st;
     pointHistory := pointHistory st; options := options st;
     resultCanvas := resultCanvas st; quality := quality st;
     store := store st; alerts := alerts st |}.

Definition setPointsR (v : list Point) (st : State) : State :=
  {| step := step st; srcL := srcL st; srcR := srcR st;
     canvasL := canvasL st; canvasR := canvasR st;
     pointsL := pointsL st; pointsR := v;
     pointHistory := pointHistory st; options := options st;
     resultCanvas := resultCanvas st; quality := quality st;
     store := store st; alerts := alerts st |}.

Definition setPointHistory (v : list Side) (st : State) : State :=
  {| step := step st; srcL := srcL st; srcR := srcR st;
     canvasL := canvasL st; canvasR := canvasR st;
     pointsL := pointsL st; pointsR := pointsR st;
     pointHistory := v; options := options st;
     resultCanvas := resultCanvas st; quality := quality st;
     store := store st; alerts := alerts st |}.

Definition setOptions (v : ProcessingOptions) (st : State) : State :=
  {| step := step st; srcL := srcL st; srcR := srcR st;
     canvasL := canvasL st; canvasR := canvasR st;
     pointsL := pointsL st; pointsR := pointsR st;
     pointHistory := pointHistory st; options := v;
     resultCanvas := resultCanvas st; quality := quality st;
     store := store st; alerts := alerts st |}.

Definition setResultCanvas (v : option CanvasRef) (st : State) : State :=
  {| step := step st; srcL := srcL st; srcR := srcR st;
     canvasL := canvasL st; canvasR := canvasR st;
     pointsL := pointsL st; pointsR := pointsR st;
     pointHistory := pointHistory st; options := options st;
     resultCanvas := v; quality := quality st;
     store := store st; alerts := alerts st |}.

(** What a call into the image service leaves in the document. *)
Definition setStore (v : Store) (st : State) : State :=
  {| step := step st; srcL := srcL st; srcR := srcR st;
     canvasL := canvasL st; canvasR := canvasR st;
     pointsL := pointsL st; pointsR := pointsR st;
     pointHistory := pointHistory st; options := options st;
     resultCanvas := resultCanvas st; quality := quality st;
     store := v; alerts := alerts st |}.

(** [alert (msg)]. *)
Definition alert (msg : string) (st : State) : State :=
  {| step := step st; srcL := srcL st; srcR := srcR st;
     canvasL := canvasL st; canvasR := canvasR st;
     pointsL := pointsL st; pointsR := pointsR st;
     pointHistory := pointHistory st; options := options st;
     resultCanvas := resultCanvas st; quality := quality st;
     store := store st; alerts := alerts st ++ [msg] |}.

(** *** The point collector *)

Definition handleAddPoint (side : Side) (p : Point) (st : State) : State :=
  let st1 :=
    match side with
    | Left => setPointsL (pointsL st ++ [p]) st
    | Right => setPointsR (pointsR st ++ [p]) st
    end in
  setPointHistory (pointHistory st1 ++ [side]) st1.

(** [slice (0, -1)] is [removelast]: all but the last, nothing of nothing. *)
Definition undoLastPoint (st : State) : State :=
  if (length (pointHistory st) =? 0)%nat then st
  else
    let lastSide := pointHistory st !! (length (pointHistory st) - 1)%nat in
    let newHistory := removelast (pointHistory st) in
    let st1 := setPointHistory newHistory st in
    match lastSide with
    | Some Left => setPointsL (removelast (pointsL st1)) st1
    | _ => setPointsR (removelast (pointsR st1)) st1
    end.

Definition clearPoints (st : State) : State :=
  setPointHistory [] (setPointsR [] (setPointsL [] st)).

(** *** The stages *)

Definition startProcessing (st : State) : State :=
  match srcL st, srcR st with
  | Some sL, Some sR =>
      if assumeEqualFraming (options st) then
        let res := ImageService.mergeSideBySide sL sR (store st) in
        setStep RESULT (setResultCanvas (Some (fst res)) (setStore (snd res) st))
      else
        let st1 :=
          if assumeEqualTilt (options st) then
            if assumeEqualZoom (options st) then setStep CROP st
            else setStep SCALE st
          else setStep ROTATE st in
        clearPoints st1
  | _, _ => st
  end.

Definition applyRotation (st : State) : State :=
  match canvasL st, canvasR st, pointsL st, pointsR st with
  | Some cL, Some cR, l0 :: l1 :: _, r0 :: r1 :: _ =>
      let angleL := ImageService.calculateAngle l0 l1 in
      let angleR := ImageService.calculateAngle r0 r1 in
      let diff := (angleL - angleR)%R in
      let next :=
        if rotateLeftImage (options st) then
          let rotation := (angleR - angleL)%R in
          let res := ImageService.rotateImage cL rotation (store st) in
          (fst res, cR, snd res)
        else
          let res := ImageService.rotateImage cR diff (store st) in
          (cL, fst res, snd res) in
      let '(nextL, nextR, store') := next in
      let st1 := setCanvasL (Some nextL) (setStore store' st) in
      let st2 := setCanvasR (Some nextR) st1 in
      let st3 := clearPoints st2 in
      if assumeEqualZoom (options st) then setStep CROP st3
      else setStep SCALE st3
  | _, _, _, _ => st
  end.

Definition applyScaling (st : State) : State :=
  match canvasL st, canvasR st, pointsL st, pointsR st with
  | Some cL, Some cR, l0 :: l1 :: _, r0 :: r1 :: _ =>
      let hL := JsMath.abs (y l0 - y l1) in
      let hR := JsMath.abs (y r0 - y r1) in
      if JsMath.eq hL 0 || JsMath.eq hR 0 then
        alert "Vertical distance cannot be zero!" st
      else
        let nextL := cL in
        let ratio := (hL / hR)%Q in
        let res := ImageService.scaleImage cR ratio (store st) in
        let nextR := fst res in
        let st1 := setCanvasL (Some nextL) (setStore (snd res) st) in
        let st2 := setCanvasR (Some nextR) st1 in
        let st3 := clearPoints st2 in
        setStep CROP st3
  | _, _, _, _ => st
  end.

Definition applyCropping (st : State) : State :=
  match canvasL st, canvasR st, pointsL st, pointsR st with
  | Some cL, Some cR, l0 :: _, r0 :: _ =>
      let res :=
        ImageService.cropImagesAligned cL cR l0 r0
          (assumeEqualZoom (options st)) (store st) in
      let left := fst (fst res) in
      let right := snd (fst res) in
      let st1 := setCanvasL (Some left) (setStore (snd res) st) in
      let st2 := setCanvasR (Some right) st1 in
      let merged := ImageService.mergeSideBySide left right (store st2) in
      let st3 := setResultCanvas (Some (fst merged)) (setStore (snd merged) st2) in
      setStep RESULT st3
  | _, _, _, _ => st
  end.

Definition resetAll (st : State) : State :=
  let st1 := setStep UPLOAD st in
  let st2 := setSrcR None (setSrcL None st1) in
  let st3 := setCanvasR None (setCanvasL None st2) in
  setResultCanvas None (clearPoints st3).

End App.

(** ** components/InteractiveCanvas.tsx: the viewport of one displayed image *)

Module InteractiveCanvas.

Record View : Type := {
  scale : Q;
  offset : Point;
  isDragging : bool;
  dragStart : Point;
  initialized : bool
}.

Definition initialView : View := {|
  scale := 1;
  offset := {| x := 0; y := 0 |};
  isDragging := false;
  dragStart := {| x := 0; y := 0 |};
  initialized := false
|}.

(** [fitToContainer]: [image] is the size of the displayed image when
    there is one, [container] the bounding rectangle of the container when
    it is mounted. *)
Definition fitToContainer (image container : option Dimensions) (v : View) : View :=
  match image, container with
  | Some img, Some rect =>
      if JsMath.eq (width rect) 0 || JsMath.eq (height rect) 0 then v
      else
        let scaleW := (width rect / width img)%Q in
        let scaleH := (height rect / height img)%Q in
        let startScale := (JsMath.min scaleW scaleH * 0.95)%Q in
        let displayW := (width img * startScale)%Q in
        let displayH := (height img * startScale)%Q in
        {| scale := startScale;
           offset := {| x := (width rect - displayW) / 2;
                        y := (height rect - displayH) / 2 |};
           isDragging := isDragging v;
           dragStart := dragStart v;
           initialized := true |}
  | _, _ => v
  end.

Definition handleReset (image container : option Dimensions) (v : View) : View :=
  fitToContainer image container v.

End InteractiveCanvas.

(** ** components/InteractiveCanvas.tsx: zooming and clicking

    The pointer position of a mouse event is the pair of its [clientX] and
    [clientY]; the canvas element, when mounted, is known by the left and
    top of its bounding rectangle.  [clickStartRef] is a ref next to the
    state variables of the view.  [handleMouseUp] returns, with the next
    state, the point it hands to [onAddPoint], if any. *)

Module DOMRect.

Record t : Type := { left : Q; top : Q }.

End DOMRect.

Module CanvasEvents.

Import InteractiveCanvas.

(** [Math.max] on rationals and [Math.sqrt] of one. *)
Definition max (a b : Q) : Q := Qmax a b.
Definition sqrt (q : Q) : R := R_sqrt.sqrt (Q2R q).
Definition le (a b : Q) : bool := Qle_bool a b.

Inductive Direction : Type := ZoomIn | ZoomOut.

Record MouseEvent : Type := { clientX : Q; clientY : Q }.

Record Pointer : Type := { view : View; clickStartRef : Point }.

Record Props : Type := {
  image : option Dimensions;
  points : list Point;
  maxPoints : nat;
  active : bool
}.

Definition setIsDragging (b : bool) (w : Pointer) : Pointer :=
  {| view := {| scale := scale (view w); offset := offset (view w);
                isDragging := b; dragStart := dragStart (view w);
                initialized := initialized (view w) |};
     clickStartRef := clickStartRef w |}.

Definition handleZoom (container : option Dimensions) (direction : Direction)
    (v : View) : View :=
  match container with
  | None => v
  | Some rect =>
      let factor := match direction with ZoomIn => 1.2%Q | ZoomOut => 0.8%Q end in
      let newScale := max 0.01 (JsMath.min 50 (scale v * factor)) in
      let centerX := (width rect / 2)%Q in
      let centerY := (height rect / 2)%Q in
      let imagePointX := ((centerX - x (offset v)) / scale v)%Q in
      let imagePointY := ((centerY - y (offset v)) / scale v)%Q in
      let newOffsetX := (centerX - imagePointX * newScale)%Q in
      let newOffsetY := (centerY - imagePointY * newScale)%Q in
      {| scale := newScale;
         offset := {| x := newOffsetX; y := newOffsetY |};
         isDragging := isDragging v;
         dragStart := dragStart v;
         initialized := initialized v |}
  end.

Definition handleMouseUp (props : Props) (canvas : option DOMRect.t)
    (e : MouseEvent) (w : Pointer) : Pointer * option Point :=
  let totalDx := (clientX e - x (clickStartRef w))%Q in
  let totalDy := (clientY e - y (clickStartRef w))%Q in
  let dist := sqrt (totalDx * totalDx + totalDy * totalDy) in
  let added :=
    if Rlt_dec dist 5 then
      if active props then
        match image props, canvas with
        | Some img, Some rect =>
            if (length (points props) <? maxPoints props)%nat then
              let clickX := (clientX e - DOMRect.left rect)%Q in
              let clickY := (clientY e - DOMRect.top rect)%Q in
              let imgX := ((clickX - x (offset (view w))) / scale (view w))%Q in
              let imgY := ((clickY - y (offset (view w))) / scale (view w))%Q in
              if le 0 imgX && le imgX (width img)
                 && le 0 imgY && le imgY (height img) then
                Some {| x := imgX; y := imgY |}
              else None
            else None
        | _, _ => None
        end
      else None
    else None in
  (setIsDragging false w, added).

End CanvasEvents.

(** ** App.tsx: the two canvases of a stage

    In the steps ROTATE, SCALE and CROP the page shows one interactive
    canvas per side, on the working canvas of that side, with the points of
    that side, the point limit of the step, and [onAddPoint] bound to
    [handleAddPoint] of that side.  The other steps show none. *)

Module Session.

Import App.

Definition maxPointsFor (s : AppStep) : option nat :=
  match s with
  | ROTATE => Some 2%nat
  | SCALE => Some 2%nat
  | CROP => Some 1%nat
  | UPLOAD | RESULT => None
  end.

Definition canvasOf (side : Side) (st : State) : option Dom.CanvasRef :=
  match side with
  | Left => canvasL st
  | Right => canvasR st
  end.

Definition sideProps (side : Side) (limit : nat) (st : State) : CanvasEvents.Props :=
  {| CanvasEvents.image :=
       match canvasOf side st with
       | Some c => Some {| width := inject_Z (Dom.widthOf (store st) c);
                           height := inject_Z (Dom.heightOf (store st) c) |}
       | None => None
       end;
     CanvasEvents.points :=
       match side with Left => pointsL st | Right => pointsR st end;
     CanvasEvents.maxPoints := limit;
     CanvasEvents.active := true |}.

(** A mouse-up on the canvas of one side. *)
Definition mouseUp (side : Side) (canvas : option DOMRect.t)
    (e : CanvasEvents.MouseEvent) (w : CanvasEvents.Pointer) (st : State)
    : CanvasEvents.Pointer * State :=
  match maxPointsFor (step st) with
  | None => (w, st)
  | Some limit =>
      let res := CanvasEvents.handleMouseUp (sideProps side limit st) canvas e w in
      (fst res,
       match snd res with
       | Some p => handleAddPoint side p st
       | None => st
       end)
  end.

(** What the operator can do on the page, uploads apart; a mouse-up comes
    with the state of the canvas it lands on. *)
Inductive Event : Type :=
| MouseUp (side : Side) (canvas : option DOMRect.t)
    (e : CanvasEvents.MouseEvent) (w : CanvasEvents.Pointer)
| Undo
| SetOptions (opts : ProcessingOptions)
| Start
| ApplyRotation
| ApplyScaling
| ApplyCropping
| Reset.

Definition handle (st : State) (ev : Event) : State :=
  match ev with
  | MouseUp side canvas e w => snd (mouseUp side canvas e w st)
  | Undo => undoLastPoint st
  | SetOptions opts => setOptions opts st
  | Start => startProcessing st
  | ApplyRotation => applyRotation st
  | ApplyScaling => applyScaling st
  | ApplyCropping => applyCropping st
  | Reset => resetAll st
  end.

Definition run (evs : list Event) (st : State) : State := fold_left handle evs st.

End Session.

(** ** Double precision

    The arithmetic above is exact.  A JavaScript number is a binary64
    value, and a difference, product or quotient of two numbers is the exact
    result rounded to such a value.  For the fitted view, for the crop and
    for the scale stage, which make whole pixels out of such results, and
    for the angle of a line, this part gives the functions again with the
    rounding in place.  [fl] is the rounding, a parameter; [Math.min],
    [Math.abs], [Math.floor], [Math.ceil] and the comparisons do not round,
    nor does the sum of two pixel counts; a literal such as [0.001] is the
    number [fl 0.001]. *)

Module Binary64.

(** The rationals that are binary64 values: an integer below 2^53 in
    magnitude, times or over a power of two, from 2^-1074 to 2^971. *)
Definition binary64 (q : Q) : Prop :=
  exists m k : Z,
    Z.abs m < 2 ^ 53 /\
    ((0 <= k <= 971 /\ (q == inject_Z (m * 2 ^ k))%Q) \/
     (0 <= k <= 1074 /\ (q * inject_Z (2 ^ k) == inject_Z m)%Q)).

(** What is used of the rounding: a binary64 value is its own rounding,
    and rounding keeps the order. *)
Definition exact (fl : Q -> Q) : Prop :=
  forall q : Q, binary64 q -> (fl q == q)%Q.

Definition monotone (fl : Q -> Q) : Prop :=
  forall a b : Q, (a <= b)%Q -> (fl a <= fl b)%Q.

(** The relative error of the rounding, for a number that is neither
    tiny nor huge: at most [u] times the number. *)
Definition relative (u : Q) (fl : Q -> Q) : Prop :=
  forall q : Q,
    (1 # 2 ^ 64 <= q <= inject_Z (2 ^ 64))%Q ->
    ((1 - u) * q <= fl q <= (1 + u) * q)%Q.

(** The largest side a canvas keeps: [canvas.width] and [canvas.height]
    hold what they are assigned from 0 to this number. *)
Definition maxCanvasSide : Z := 2147483647.

(** Rounding to the nearest binary64 value, ties to even, of a number
    below the largest such value: 53 significant bits, and steps of
    2^-1074 next to zero. *)
Definition pow2 (k : Z) : Q :=
  if 0 <=? k then inject_Z (2 ^ k) else 1 # Z.to_pos (2 ^ (- k)).

Definition ilog2 (q : Q) : Z :=
  let e := Z.log2 (Qnum q) - Z.log2 (Zpos (Qden q)) in
  if Qle_bool (pow2 e) q then e else e - 1.

Definition roundHalfEven (q : Q) : Z :=
  let f := Qfloor q in
  match (q - inject_Z f ?= 1 # 2)%Q with
  | Lt => f
  | Gt => f + 1
  | Eq => if Z.even f then f else f + 1
  end.

Definition round64 (q : Q) : Q :=
  if Qeq_bool q 0 then 0%Q
  else
    let a := Qabs q in
    let p := Z.max (ilog2 a - 52) (- 1074) in
    let r := (inject_Z (roundHalfEven (a / pow2 p)) * pow2 p)%Q in
    if Qle_bool 0 q then r else (- r)%Q.

Section Rounded.

Variable fl : Q -> Q.

Definition sub (a b : Q) : Q := fl (a - b).
Definition mul (a b : Q) : Q := fl (a * b).
Definition div (a b : Q) : Q := fl (a / b).

Import InteractiveCanvas.

(** [fitToContainer] of the interactive canvas. *)
Definition fitToContainer (image container : option Dimensions) (v : View) : View :=
  match image, container with
  | Some img, Some rect =>
      if JsMath.eq (width rect) 0 || JsMath.eq (height rect) 0 then v
      else
        let scaleW := div (width rect) (width img) in
        let scaleH := div (height rect) (height img) in
        let startScale := mul (JsMath.min scaleW scaleH) (fl 0.95) in
        let displayW := mul (width img) startScale in
        let displayH := mul (height img) startScale in
        {| scale := startScale;
           offset := {| x := div (sub (width rect) displayW) 2;
                        y := div (sub (height rect) displayH) 2 |};
           isDragging := isDragging v;
           dragStart := dragStart v;
           initialized := true |}
  | _, _ => v
  end.

Import Dom App.

Local Open Scope dom_scope.

(** [scaleImage] of the image service. *)
Definition scaleImage (source : CanvasRef) (scale : Q) : DOM CanvasRef :=
  if JsMath.lt (JsMath.abs (sub scale 1)) (fl 0.001) then
    srcW <- getWidth source ;;
    srcH <- getHeight source ;;
    ImageService.cloneCanvas source (inject_Z srcW) (inject_Z srcH)
  else
    srcW <- getWidth source ;;
    srcH <- getHeight source ;;
    let newWidth := JsMath.ceil (mul (inject_Z srcW) scale) in
    let newHeight := JsMath.ceil (mul (inject_Z srcH) scale) in
    canvas <- createCanvas ;;
    setWidth canvas newWidth ;;
    setHeight canvas newHeight ;;
    draw canvas (DrawImageScaled source 0 0 (inject_Z newWidth) (inject_Z newHeight)) ;;
    ret canvas.

(** [cropImagesAligned] of the image service. *)
Definition cropImagesAligned (left right : CanvasRef) (pL pR : Point)
    (equalZoom : bool) : DOM (CanvasRef * CanvasRef) :=
  leftW <- getWidth left ;;
  rightW <- getWidth right ;;
  leftH <- getHeight left ;;
  rightH <- getHeight right ;;
  let L_left := x pL in
  let R_left := x pR in
  let cropLeft := JsMath.floor (JsMath.min L_left R_left) in
  let L_right := sub (inject_Z leftW) (x pL) in
  let R_right := sub (inject_Z rightW) (x pR) in
  let cropRight := JsMath.floor (JsMath.min L_right R_right) in
  let L_top := y pL in
  let R_top := y pR in
  let L_bottom := sub (inject_Z leftH) (y pL) in
  let R_bottom := sub (inject_Z rightH) (y pR) in
  let cropTop := JsMath.floor (JsMath.min L_top R_top) in
  let cropBottom := JsMath.floor (JsMath.min L_bottom R_bottom) in
  let finalWidth := cropLeft + cropRight in
  let finalHeight := cropTop + cropBottom in
  let createCropped (source : CanvasRef) (anchor : Point) : DOM CanvasRef :=
    canvas <- createCanvas ;;
    setWidth canvas finalWidth ;;
    setHeight canvas finalHeight ;;
    let srcX := JsMath.floor (sub (x anchor) (inject_Z cropLeft)) in
    let srcY := JsMath.floor (sub (y anchor) (inject_Z cropTop)) in
    draw canvas (DrawImageCropped source
                   (inject_Z srcX) (inject_Z srcY)
                   (inject_Z finalWidth) (inject_Z finalHeight)
                   0 0
                   (inject_Z finalWidth) (inject_Z finalHeight)) ;;
    ret canvas in
  newLeft <- createCropped left pL ;;
  newRight <- createCropped right pR ;;
  ret (newLeft, newRight).

(** [applyScaling] of the controller. *)
Definition applyScaling (st : State) : State :=
  match canvasL st, canvasR st, pointsL st, pointsR st with
  | Some cL, Some cR, l0 :: l1 :: _, r0 :: r1 :: _ =>
      let hL := JsMath.abs (sub (y l0) (y l1)) in
      let hR := JsMath.abs (sub (y r0) (y r1)) in
      if JsMath.eq hL 0 || JsMath.eq hR 0 then
        alert "Vertical distance cannot be zero!" st
      else
        let nextL := cL in
        let ratio := div hL hR in
        let res := scaleImage cR ratio (store st) in
        let nextR := fst res in
        let st1 := setCanvasL (Some nextL) (setStore (snd res) st) in
        let st2 := setCanvasR (Some nextR) st1 in
        let st3 := clearPoints st2 in
        setStep CROP st3
  | _, _, _, _ => st
  end.

End Rounded.

Section RoundedAngle.

(** The numbers of the code taken as the reals they stand for: [rnd] is
    the rounding of an operation, [atan2] the [Math.atan2] of the
    platform and [pi] its [Math.PI]. *)
Variable rnd : R -> R.
Variable atan2 : R -> R -> R.
Variable pi : R.

Local Open Scope R_scope.

(** [calculateAngle] of the image service. *)
Definition calculateAngle (p1 p2 : Point) : R :=
  rnd (atan2 (rnd (Q2R (y p2) - Q2R (y p1))) (rnd (Q2R (x p2) - Q2R (x p1)))
       * rnd (180 / pi)).

End RoundedAngle.

End Binary64.

(** ** Vocabulary of the properties *)

(** The operations of the point collector, and a run of them. *)
Inductive PointOp : Type :=
| AddPoint (side : App.Side) (p : Point)
| UndoLast
| Clear.

Definition runPointOp (st : App.State) (op : PointOp) : App.State :=
  match op with
  | AddPoint side p => App.handleAddPoint side p st
  | UndoLast => App.undoLastPoint st
  | Clear => App.clearPoints st
  end.

Definition runPointOps (ops : list PointOp) (st : App.State) : App.State :=
  fold_left runPointOp ops st.

(** The points of one side, and how often a side occurs in a history. *)
Definition pointsOf (side : App.Side) (st : App.State) : list Point :=
  match side with
  | App.Left => App.pointsL st
  | App.Right => App.pointsR st
  end.

Definition otherSide (side : App.Side) : App.Side :=
  match side with
  | App.Left => App.Right
  | App.Right => App.Left
  end.

Definition isSide (side tag : App.Side) : bool :=
  match side, tag with
  | App.Left, App.Left | App.Right, App.Right => true
  | _, _ => false
  end.

Fixpoint tagCount (side : App.Side) (h : list App.Side) : nat :=
  match h with
  | [] => 0%nat
  | tag :: rest => ((if isSide side tag then 1 else 0) + tagCount side rest)%nat
  end.

(** Every side has as many points as the history has tags for it. *)
Definition collectorConsistent (st : App.State) : Prop :=
  tagCount App.Left (App.pointHistory st) = length (App.pointsL st) /\
  tagCount App.Right (App.pointHistory st) = length (App.pointsR st).

(** Sample data: a point, a photograph as loaded, and a session with a
    100 by 100 left and a 120 by 100 right photograph. *)
Definition pt (a b : Q) : Point := {| x := a; y := b |}.

Definition photo (w h : Z) : Dom.Canvas :=
  {| Dom.width := w; Dom.height := h; Dom.commands := [] |}.

Definition loaded (opts : ProcessingOptions) : App.State :=
  App.setOptions opts
    (App.setCanvasR (Some 1%nat) (App.setCanvasL (Some 0%nat)
      (App.setSrcR (Some 1%nat) (App.setSrcL (Some 0%nat)
        (App.setStore [photo 100 100; photo 120 100] App.initial))))).

Definition withPoints (ls rs : list Point) (st : App.State) : App.State :=
  fold_left (fun s p => App.handleAddPoint App.Right p s) rs
    (fold_left (fun s p => App.handleAddPoint App.Left p s) ls st).

(** Adding a list of points in order, and undoing a number of times. *)
Definition addPoints (adds : list (App.Side * Point)) (st : App.State) : App.State :=
  fold_left (fun s a => App.handleAddPoint (fst a) (snd a) s) adds st.

Definition undoTimes (n : nat) (st : App.State) : App.State :=
  Nat.iter n App.undoLastPoint st.

(** A point lies on the canvas a state variable refers to. *)
Definition insideCanvas (s : list Dom.Canvas) (c : option Dom.CanvasRef)
    (p : Point) : Prop :=
  match c with
  | Some r =>
      (0 <= x p)%Q /\ (x p <= inject_Z (Dom.widthOf s r))%Q /\
      (0 <= y p)%Q /\ (y p <= inject_Z (Dom.heightOf s r))%Q
  | None => False
  end.

(** In a step that shows canvases, neither side holds more points than the
    step allows, and every point lies on the working canvas of its side. *)
Definition stageBounded (st : App.State) : Prop :=
  forall limit, Session.maxPointsFor (App.step st) = Some limit ->
    (length (App.pointsL st) <= limit)%nat /\
    (length (App.pointsR st) <= limit)%nat /\
    Forall (insideCanvas (App.store st) (App.canvasL st)) (App.pointsL st) /\
    Forall (insideCanvas (App.store st) (App.canvasR st)) (App.pointsR st).

Definition sessionInv (st : App.State) : Prop :=
  collectorConsistent st /\ stageBounded st.

(** * Properties *)

(** ** Angle measurement *)

Section Angle.

Local Open Scope R_scope.

Lemma atan2_null : JsMath.atan2 0 0 = 0.
Proof.
  unfold JsMath.atan2.
  destruct (Rlt_dec 0 0) as [H | _]; [lra |].
  destruct (Rle_dec 0 0); reflexivity.
Qed.

End Angle.

Section AngleClaims.

Local Open Scope R_scope.

(** C10: for coincident points, where both differences are zero, the
    angle measurement does not fail and returns exactly 0. *)
Theorem calculateAngle_coincident (p1 p2 : Point) :
  (x p1 == x p2)%Q -> (y p1 == y p2)%Q ->
  ImageService.calculateAngle p1 p2 = 0.
Proof.
  intros Hx Hy. unfold ImageService.calculateAngle.
  assert (Q2R (y p2 - y p1) = 0) as ->.
  { rewrite Q2R_minus, (Qeq_eqR _ _ Hy). lra. }
  assert (Q2R (x p2 - x p1) = 0) as ->.
  { rewrite Q2R_minus, (Qeq_eqR _ _ Hx). lra. }
  rewrite atan2_null. lra.
Qed.

Lemma calculateAngle_coincident_witness :
  ((x (pt 3 4) == x (pt 3 4))%Q /\ (y (pt 3 4) == y (pt 3 4))%Q) /\
  ImageService.calculateAngle (pt 3 4) (pt 3 4) = 0.
Proof.
  split; [split; reflexivity |].
  apply (calculateAngle_coincident (pt 3 4) (pt 3 4)); reflexivity.
Defined.

End AngleClaims.

(** ** The point collector *)

Section Collector.

Import App.
Local Open Scope nat_scope.

Lemma tagCount_snoc side h tag :
  tagCount side (h ++ [tag]) = tagCount side h + (if isSide side tag then 1 else 0).
Proof.
  induction h as [| t h IH]; simpl.
  - lia.
  - rewrite IH. lia.
Qed.

Lemma tagCount_total h :
  length h = tagCount Left h + tagCount Right h.
Proof.
  induction h as [| [] h IH]; simpl; lia.
Qed.

Lemma consistent_length st :
  collectorConsistent st ->
  length (pointHistory st) = length (pointsL st) + length (pointsR st).
Proof.
  intros [HL HR]. rewrite <- HL, <- HR. apply tagCount_total.
Qed.

Lemma lookup_last_snoc {A} (l : list A) (a : A) :
  (l ++ [a]) !! (length (l ++ [a]) - 1) = Some a.
Proof.
  apply list_lookup_middle. rewrite length_app. simpl. lia.
Qed.

Lemma nonempty_snoc {A} (l : list A) :
  length l <> 0 -> exists l' a, l = l' ++ [a].
Proof.
  destruct l as [| b l] using rev_ind; [easy |].
  intros _. now exists l, b.
Qed.

(** What [undoLastPoint] does to a history that ends in [tag]. *)
Lemma undoLastPoint_snoc st h tag :
  pointHistory st = h ++ [tag] ->
  pointHistory (undoLastPoint st) = h /\
  pointsOf tag (undoLastPoint st) = removelast (pointsOf tag st) /\
  pointsOf (otherSide tag) (undoLastPoint st) = pointsOf (otherSide tag) st.
Proof.
  intros Hh. unfold undoLastPoint. rewrite Hh.
  rewrite lookup_last_snoc, removelast_last.
  rewrite length_app, Nat.add_comm. simpl.
  destruct tag; simpl; auto.
Qed.

Lemma undoLastPoint_empty st :
  pointHistory st = [] -> undoLastPoint st = st.
Proof. intros Hh. unfold undoLastPoint. now rewrite Hh. Qed.

Lemma undo_after_add side p st :
  undoLastPoint (handleAddPoint side p st) = st.
Proof.
  unfold undoLastPoint.
  assert (Hh : pointHistory (handleAddPoint side p st) = pointHistory st ++ [side])
    by (destruct side; reflexivity).
  rewrite Hh, lookup_last_snoc, removelast_last.
  rewrite length_app, Nat.add_comm. simpl.
  destruct st, side; simpl; now rewrite removelast_last.
Qed.

Lemma consistent_add side p st :
  collectorConsistent st -> collectorConsistent (handleAddPoint side p st).
Proof.
  intros [HL HR].
  destruct side; split; simpl; rewrite tagCount_snoc, ?length_app; simpl; lia.
Qed.

Lemma consistent_clear st : collectorConsistent (clearPoints st).
Proof. split; reflexivity. Qed.

Lemma consistent_undo st :
  collectorConsistent st -> collectorConsistent (undoLastPoint st).
Proof.
  intros Hc.
  destruct (Nat.eq_dec (length (pointHistory st)) 0) as [Hz | Hnz].
  - rewrite undoLastPoint_empty; [exact Hc |].
    now apply length_zero_iff_nil.
  - destruct (nonempty_snoc _ Hnz) as (h & tag & Hh).
    destruct (undoLastPoint_snoc st h tag Hh) as (Hh' & Hp & Ho).
    destruct Hc as [HL HR]. rewrite Hh in HL, HR.
    rewrite tagCount_snoc in HL, HR.
    unfold collectorConsistent. rewrite Hh'.
    destruct tag; simpl in *; rewrite Hp, Ho;
      rewrite removelast_firstn_len, length_take; lia.
Qed.

Lemma consistent_run ops : forall st,
  collectorConsistent st -> collectorConsistent (runPointOps ops st).
Proof.
  induction ops as [| op ops IH]; intros st Hc; [exact Hc |].
  apply IH. destruct op; simpl.
  - now apply consistent_add.
  - now apply consistent_undo.
  - apply consistent_clear.
Qed.

Lemma consistent_points_of_tag st h tag :
  collectorConsistent st -> pointHistory st = h ++ [tag] ->
  exists ps p, pointsOf tag st = ps ++ [p].
Proof.
  intros [HL HR] Hh. rewrite Hh, tagCount_snoc in HL, HR.
  apply nonempty_snoc. destruct tag; simpl in *; lia.
Qed.

(** C7: in every state reached from an empty collector by adding points,
    undoing and clearing, the history is as long as the two point sets
    together; undoing pops the last tag and the last point of the side it
    names, leaves the other side alone, takes back the point added last
    and does nothing on an empty history; after left, right, left, one
    undo leaves the first left point and the right point. *)
Theorem collector_history_invariant (st0 : State) (ops : list PointOp) :
  pointsL st0 = [] -> pointsR st0 = [] -> pointHistory st0 = [] ->
  let st := runPointOps ops st0 in
  length (pointHistory st) = length (pointsL st) + length (pointsR st) /\
  (pointHistory st = [] -> undoLastPoint st = st) /\
  (forall h tag, pointHistory st = h ++ [tag] ->
     exists ps p,
       pointsOf tag st = ps ++ [p] /\
       pointHistory (undoLastPoint st) = h /\
       pointsOf tag (undoLastPoint st) = ps /\
       pointsOf (otherSide tag) (undoLastPoint st) = pointsOf (otherSide tag) st) /\
  (forall side p, undoLastPoint (handleAddPoint side p st) = st) /\
  (forall p1 p2 p3,
     let st' := runPointOps [AddPoint Left p1; AddPoint Right p2;
                             AddPoint Left p3; UndoLast] st0 in
     pointsL st' = [p1] /\ pointsR st' = [p2] /\
     pointHistory st' = [Left; Right]).
Proof.
  intros HL HR HH st.
  assert (Hc : collectorConsistent st).
  { apply consistent_run. split; rewrite HH; [rewrite HL | rewrite HR]; reflexivity. }
  split; [now apply consistent_length |].
  split; [apply undoLastPoint_empty |].
  split.
  - intros h tag Hh.
    destruct (consistent_points_of_tag st h tag Hc Hh) as (ps & p & Hps).
    destruct (undoLastPoint_snoc st h tag Hh) as (Hh' & Hp & Ho).
    exists ps, p. rewrite Hp, Hps, removelast_last. auto.
  - split; [intros; apply undo_after_add |].
    intros p1 p2 p3. simpl. rewrite undo_after_add. simpl.
    rewrite HL, HR, HH. auto.
Qed.

Lemma collector_history_invariant_witness :
  (pointsL initial = [] /\ pointsR initial = [] /\ pointHistory initial = []) /\
  let st := runPointOps [AddPoint Left (pt 1 1); AddPoint Right (pt 2 2); UndoLast]
              initial in
  length (pointHistory st) = length (pointsL st) + length (pointsR st).
Proof.
  split; [repeat split |].
  exact (proj1 (collector_history_invariant initial
                  [AddPoint Left (pt 1 1); AddPoint Right (pt 2 2); UndoLast]
                  eq_refl eq_refl eq_refl)).
Defined.

End Collector.

(** ** The canvas store *)

Section Store.

Import Dom.

Lemma alter_fresh (f : Canvas -> Canvas) (s : Store) (c : Canvas) :
  alter f (length s) (s ++ [c]) = s ++ [f c].
Proof.
  rewrite <- (Nat.add_0_r (length s)) at 1.
  now rewrite alter_app_r.
Qed.

Lemma lookup_fresh (s : Store) (c : Canvas) : (s ++ [c]) !! length s = Some c.
Proof. now apply list_lookup_middle. Qed.

Lemma lookup_kept (s : Store) (c : Canvas) (i : CanvasRef) :
  (i < length s)%nat -> (s ++ [c]) !! i = s !! i.
Proof. apply lookup_app_l. Qed.

Lemma widthOf_kept s c i : (i < length s)%nat -> widthOf (s ++ [c]) i = widthOf s i.
Proof. intros Hi. unfold widthOf. now rewrite lookup_kept. Qed.

Lemma heightOf_kept s c i : (i < length s)%nat -> heightOf (s ++ [c]) i = heightOf s i.
Proof. intros Hi. unfold heightOf. now rewrite lookup_kept. Qed.

Lemma widthOf_lookup s i c : s !! i = Some c -> widthOf s i = width c.
Proof. intros H. unfold widthOf. now rewrite H. Qed.

Lemma heightOf_lookup s i c : s !! i = Some c -> heightOf s i = height c.
Proof. intros H. unfold heightOf. now rewrite H. Qed.

Lemma lookup_valid (s : Store) (i : CanvasRef) (c : Canvas) :
  s !! i = Some c -> (i < length s)%nat.
Proof. apply lookup_lt_Some. Qed.

Lemma cloneCanvas_run source w h s :
  ImageService.cloneCanvas source w h s =
  (length s,
   s ++ [{| width := JsMath.floor w; height := JsMath.floor h;
            commands := [DrawImage source 0 0] |}]).
Proof.
  unfold ImageService.cloneCanvas, bind, createCanvas, setWidth, setHeight, draw, ret.
  now rewrite !alter_fresh.
Qed.

Lemma scaleImage_run source ratio s :
  ImageService.scaleImage source ratio s =
  (length s,
   s ++ [if JsMath.lt (JsMath.abs (ratio - 1)) 0.001 then
           {| width := JsMath.floor (inject_Z (widthOf s source));
              height := JsMath.floor (inject_Z (heightOf s source));
              commands := [DrawImage source 0 0] |}
         else
           let newWidth := JsMath.ceil (inject_Z (widthOf s source) * ratio) in
           let newHeight := JsMath.ceil (inject_Z (heightOf s source) * ratio) in
           {| width := newWidth; height := newHeight;
              commands := [DrawImageScaled source 0 0
                             (inject_Z newWidth) (inject_Z newHeight)] |}]).
Proof.
  unfold ImageService.scaleImage.
  destruct (JsMath.lt (JsMath.abs (ratio - 1)) 0.001);
    unfold bind, getWidth, getHeight.
  - apply cloneCanvas_run.
  - unfold createCanvas, setWidth, setHeight, draw, ret.
    now rewrite !alter_fresh.
Qed.

(** A call of the image service makes one canvas and leaves the others. *)
Lemma rotateImage_run source angle s :
  exists cv, ImageService.rotateImage source angle s = (length s, s ++ [cv]).
Proof.
  unfold ImageService.rotateImage.
  destruct (Rlt_dec (Rabs angle) 0.01); unfold bind, getWidth, getHeight.
  - eexists. apply cloneCanvas_run.
  - unfold createCanvas, setWidth, setHeight, draw, ret.
    rewrite !alter_fresh. eexists. reflexivity.
Qed.

End Store.

(** ** Anchor-aligned crop *)

Section Crop.

Import Dom.

Lemma Qfloor_unique (z : Z) (q : Q) :
  (inject_Z z <= q)%Q -> (q < inject_Z (z + 1))%Q -> Qfloor q = z.
Proof.
  intros Hlo Hhi.
  pose proof (Qfloor_resp_le _ _ Hlo) as H1. rewrite Qfloor_Z in H1.
  pose proof (Qle_lt_trans _ _ _ (Qfloor_le q) Hhi) as H2.
  rewrite <- Zlt_Qlt in H2. lia.
Qed.

(** Moving a number by an integer moves its floor by that integer. *)
Lemma Qfloor_minus_Z (q : Q) (n : Z) : Qfloor (q - inject_Z n) = Qfloor q - n.
Proof.
  apply Qfloor_unique.
  - unfold Z.sub. rewrite inject_Z_plus, inject_Z_opp.
    pose proof (Qfloor_le q). Lqa.lra.
  - replace (Qfloor q - n + 1) with ((Qfloor q + 1) + - n) by lia.
    rewrite inject_Z_plus, inject_Z_opp.
    pose proof (Qlt_floor q). Lqa.lra.
Qed.

Lemma cropImagesAligned_run left right pL pR equalZoom s :
  let cropLeft := Qfloor (Qmin (x pL) (x pR)) in
  let cropRight := Qfloor (Qmin (inject_Z (widthOf s left) - x pL)
                                (inject_Z (widthOf s right) - x pR)) in
  let cropTop := Qfloor (Qmin (y pL) (y pR)) in
  let cropBottom := Qfloor (Qmin (inject_Z (heightOf s left) - y pL)
                                 (inject_Z (heightOf s right) - y pR)) in
  let finalWidth := cropLeft + cropRight in
  let finalHeight := cropTop + cropBottom in
  let cut source anchor :=
    {| width := finalWidth; height := finalHeight;
       commands :=
         [DrawImageCropped source
            (inject_Z (Qfloor (x anchor - inject_Z cropLeft)))
            (inject_Z (Qfloor (y anchor - inject_Z cropTop)))
            (inject_Z finalWidth) (inject_Z finalHeight) 0 0
            (inject_Z finalWidth) (inject_Z finalHeight)] |} in
  ImageService.cropImagesAligned left right pL pR equalZoom s =
  ((length s, S (length s)), (s ++ [cut left pL]) ++ [cut right pR]).
Proof.
  intros.
  unfold ImageService.cropImagesAligned, bind, getWidth, getHeight,
    createCanvas, setWidth, setHeight, draw, ret.
  rewrite !alter_fresh.
  rewrite length_app, Nat.add_1_r.
  reflexivity.
Qed.

(** For anchors inside their images the crop distances are not negative
    and each cut window lies inside its source: the dimensions assigned to
    the new canvases are then proper canvas dimensions.  Stated for one
    axis. *)
Lemma crop_window_inside (wL wR : Z) (aL aR : Q) :
  (0 <= aL)%Q -> (aL <= inject_Z wL)%Q ->
  (0 <= aR)%Q -> (aR <= inject_Z wR)%Q ->
  let cropLeft := Qfloor (Qmin aL aR) in
  let cropRight := Qfloor (Qmin (inject_Z wL - aL) (inject_Z wR - aR)) in
  0 <= cropLeft /\ 0 <= cropRight /\
  0 <= Qfloor (aL - inject_Z cropLeft) /\
  Qfloor (aL - inject_Z cropLeft) + (cropLeft + cropRight) <= wL /\
  0 <= Qfloor (aR - inject_Z cropLeft) /\
  Qfloor (aR - inject_Z cropLeft) + (cropLeft + cropRight) <= wR.
Proof.
  intros HL0 HL1 HR0 HR1 cropLeft cropRight.
  assert (Hfit : forall (w : Z) (a : Q), Qfloor (inject_Z w - a) + Qfloor a <= w).
  { intros w a. rewrite Zle_Qle, inject_Z_plus.
    pose proof (Qfloor_le (inject_Z w - a)). pose proof (Qfloor_le a). Lqa.lra. }
  assert (H0 : 0 <= cropLeft).
  { change 0 with (Qfloor 0). apply Qfloor_resp_le. now apply Q.min_glb. }
  assert (H1 : 0 <= cropRight).
  { change 0 with (Qfloor 0). apply Qfloor_resp_le. apply Q.min_glb; Lqa.lra. }
  pose proof (Qfloor_resp_le _ _ (Q.le_min_l aL aR)) as HlL.
  pose proof (Qfloor_resp_le _ _ (Q.le_min_r aL aR)) as HlR.
  pose proof (Qfloor_resp_le _ _
                (Q.le_min_l (inject_Z wL - aL) (inject_Z wR - aR))) as HrL.
  pose proof (Qfloor_resp_le _ _
                (Q.le_min_r (inject_Z wL - aL) (inject_Z wR - aR))) as HrR.
  pose proof (Hfit wL aL). pose proof (Hfit wR aR).
  fold cropLeft in HlL, HlR. fold cropRight in HrL, HrR.
  rewrite !Qfloor_minus_Z. lia.
Qed.

End Crop.

(** ** Leaving the upload step *)

Section Start.

Import Dom App.

Lemma mergeSideBySide_run left right cl cr s :
  s !! left = Some cl -> s !! right = Some cr ->
  let outW := width cl + width cr in
  let outH := Z.max (height cl) (height cr) in
  ImageService.mergeSideBySide left right s =
  (length s,
   s ++ [{| width := outW; height := outH;
            commands :=
              [FillStyle "#000";
               FillRect 0 0 (inject_Z outW) (inject_Z outH);
               DrawImage left 0
                 (inject_Z (Qfloor (inject_Z (outH - height cl) / 2)));
               DrawImage right (inject_Z (width cl))
                 (inject_Z (Qfloor (inject_Z (outH - height cr) / 2)))] |}]).
Proof.
  intros Hl Hr outW outH.
  pose proof (lookup_valid _ _ _ Hl) as Vl.
  pose proof (lookup_valid _ _ _ Hr) as Vr.
  unfold ImageService.mergeSideBySide, bind, getWidth, getHeight,
    createCanvas, setWidth, setHeight, draw, ret.
  rewrite !widthOf_kept, !heightOf_kept by assumption.
  rewrite (widthOf_lookup _ _ _ Hl), (widthOf_lookup _ _ _ Hr),
    (heightOf_lookup _ _ _ Hl), (heightOf_lookup _ _ _ Hr).
  unfold JsMath.floor. rewrite !Qfloor_Z.
  now rewrite !alter_fresh.
Qed.

(** C2: with both images loaded, starting the pipeline goes to RESULT
    when equal framing is assumed, the result being the two source images
    as they are, put side by side; else to CROP when equal tilt and equal
    zoom are assumed; else to SCALE when equal tilt is; else to ROTATE. *)
Theorem startProcessing_route (st : State) (sL sR : CanvasRef) (cl cr : Canvas) :
  srcL st = Some sL -> srcR st = Some sR ->
  store st !! sL = Some cl -> store st !! sR = Some cr ->
  let st' := startProcessing st in
  step st' =
    (if assumeEqualFraming (options st) then RESULT
     else if assumeEqualTilt (options st) then
            if assumeEqualZoom (options st) then CROP else SCALE
          else ROTATE) /\
  canvasL st' = canvasL st /\ canvasR st' = canvasR st /\
  (assumeEqualFraming (options st) = true ->
   exists (merged : CanvasRef) (out : Canvas),
     ImageService.mergeSideBySide sL sR (store st) = (merged, store st') /\
     resultCanvas st' = Some merged /\
     store st' !! merged = Some out /\
     store st' !! sL = Some cl /\ store st' !! sR = Some cr /\
     width out = width cl + width cr /\
     height out = Z.max (height cl) (height cr) /\
     commands out =
       [FillStyle "#000";
        FillRect 0 0 (inject_Z (width out)) (inject_Z (height out));
        DrawImage sL 0
          (inject_Z (Qfloor (inject_Z (height out - height cl) / 2)));
        DrawImage sR (inject_Z (width cl))
          (inject_Z (Qfloor (inject_Z (height out - height cr) / 2)))]).
Proof.
  intros HsL HsR Hcl Hcr st'. subst st'.
  unfold startProcessing. rewrite HsL, HsR.
  destruct (assumeEqualFraming (options st)) eqn:Hf.
  - cbn [step canvasL canvasR resultCanvas store setStep setResultCanvas setStore].
    repeat split.
    intros _. rewrite (mergeSideBySide_run _ _ _ _ _ Hcl Hcr).
    cbn [fst snd]. eexists _, _. split; [reflexivity |].
    split; [reflexivity |].
    split; [apply lookup_fresh |].
    split; [rewrite lookup_kept; eauto using lookup_valid |].
    split; [rewrite lookup_kept; eauto using lookup_valid |].
    cbn [width height commands]. auto.
  - destruct (assumeEqualTilt (options st)), (assumeEqualZoom (options st));
      repeat split; discriminate.
Qed.

Lemma startProcessing_route_witness :
  let st := loaded {| assumeEqualTilt := true; assumeEqualZoom := false;
                      assumeEqualFraming := false; rotateLeftImage := false |} in
  (srcL st = Some 0%nat /\ srcR st = Some 1%nat /\
   store st !! 0%nat = Some (photo 100 100) /\
   store st !! 1%nat = Some (photo 120 100)) /\
  step (startProcessing st) = SCALE.
Proof.
  intros st. split; [repeat split |].
  exact (proj1 (startProcessing_route st 0%nat 1%nat (photo 100 100) (photo 120 100)
                  eq_refl eq_refl eq_refl eq_refl)).
Defined.

End Start.

(** ** The scale stage *)

Section Scale.

Import Dom App.

Lemma vertical_distance_zero (a b : Q) :
  JsMath.eq (JsMath.abs (a - b)) 0 = true <-> (a == b)%Q.
Proof.
  unfold JsMath.eq, JsMath.abs. rewrite Qeq_bool_iff. split.
  - intros H. revert H. apply Qabs_case; intros; Lqa.lra.
  - intros H. apply Qabs_case; intros; Lqa.lra.
Qed.

Lemma vertical_distance_nonzero (a b : Q) :
  ~ (a == b)%Q -> JsMath.eq (JsMath.abs (a - b)) 0 = false.
Proof.
  intros H. apply not_true_is_false. now rewrite vertical_distance_zero.
Qed.

(** C6: in the scale stage with two points on each side, when the two
    points of a side have the same height the apply shows a message and
    changes nothing else: the stage is still SCALE, and the working
    canvases, the store behind them, the point sets and the history are
    what they were. *)
Theorem applyScaling_degenerate
    (st : State) (cL cR : CanvasRef) (l0 l1 r0 r1 : Point) (ls rs : list Point) :
  step st = SCALE ->
  canvasL st = Some cL -> canvasR st = Some cR ->
  pointsL st = l0 :: l1 :: ls -> pointsR st = r0 :: r1 :: rs ->
  (y l0 == y l1)%Q \/ (y r0 == y r1)%Q ->
  let st' := applyScaling st in
  alerts st' = alerts st ++ ["Vertical distance cannot be zero!"%string] /\
  step st' = SCALE /\
  canvasL st' = canvasL st /\ canvasR st' = canvasR st /\
  store st' = store st /\
  pointsL st' = pointsL st /\ pointsR st' = pointsR st /\
  pointHistory st' = pointHistory st /\
  srcL st' = srcL st /\ srcR st' = srcR st /\
  resultCanvas st' = resultCanvas st /\ options st' = options st.
Proof.
  intros Hstep HcL HcR HpL HpR Hzero st'. subst st'.
  unfold applyScaling. rewrite HcL, HcR, HpL, HpR.
  assert (Hguard : JsMath.eq (JsMath.abs (y l0 - y l1)) 0
                   || JsMath.eq (JsMath.abs (y r0 - y r1)) 0 = true).
  { apply orb_true_iff. rewrite !vertical_distance_zero. exact Hzero. }
  rewrite Hguard.
  cbn [alert alerts step canvasL canvasR store pointsL pointsR pointHistory
       srcL srcR resultCanvas options].
  rewrite <- HcL, <- HcR, <- HpL, <- HpR.
  repeat split; assumption.
Qed.

Lemma applyScaling_degenerate_witness :
  let st := withPoints [pt 0 0; pt 0 10] [pt 0 5; pt 0 5]
              (setStep SCALE (loaded (options initial))) in
  (step st = SCALE /\ canvasL st = Some 0%nat /\ canvasR st = Some 1%nat /\
   pointsL st = [pt 0 0; pt 0 10] /\ pointsR st = [pt 0 5; pt 0 5] /\
   ((y (pt 0 0) == y (pt 0 10))%Q \/ (y (pt 0 5) == y (pt 0 5))%Q)) /\
  alerts (applyScaling st) = ["Vertical distance cannot be zero!"%string] /\
  step (applyScaling st) = SCALE /\
  canvasL (applyScaling st) = canvasL st /\ canvasR (applyScaling st) = canvasR st /\
  store (applyScaling st) = store st /\
  pointsL (applyScaling st) = pointsL st /\ pointsR (applyScaling st) = pointsR st /\
  pointHistory (applyScaling st) = pointHistory st.
Proof.
  intros st.
  assert (Hz : (y (pt 0 0) == y (pt 0 10))%Q \/ (y (pt 0 5) == y (pt 0 5))%Q)
    by (right; reflexivity).
  split; [repeat split; exact Hz |].
  destruct (applyScaling_degenerate st 0%nat 1%nat (pt 0 0) (pt 0 10) (pt 0 5) (pt 0 5)
              [] [] eq_refl eq_refl eq_refl eq_refl eq_refl Hz)
    as (Ha & Hs & HL & HR & Hst & HpL & HpR & Hh & _).
  repeat split; assumption.
Defined.

(** The state after a scale apply that goes through. *)
Lemma applyScaling_applied st cL cR l0 l1 ls r0 r1 rs :
  canvasL st = Some cL -> canvasR st = Some cR ->
  pointsL st = l0 :: l1 :: ls -> pointsR st = r0 :: r1 :: rs ->
  ~ (y l0 == y l1)%Q -> ~ (y r0 == y r1)%Q ->
  let ratio := (Qabs (y l0 - y l1) / Qabs (y r0 - y r1))%Q in
  let res := ImageService.scaleImage cR ratio (store st) in
  applyScaling st =
  setStep CROP (clearPoints (setCanvasR (Some (fst res))
    (setCanvasL (Some cL) (setStore (snd res) st)))).
Proof.
  intros HcL HcR HpL HpR HnL HnR ratio res.
  unfold applyScaling. rewrite HcL, HcR, HpL, HpR.
  rewrite (vertical_distance_nonzero _ _ HnL), (vertical_distance_nonzero _ _ HnR).
  reflexivity.
Qed.

(** C5 as stated fails next to ratio 1: for the distances 100 and 99.95
    the right image, 120 by 100, is copied at its own size, where the
    ceilings of the scaled sides are 121 and 101. *)
Lemma applyScaling_near_one_keeps_size :
  let st := withPoints [pt 0 0; pt 0 100] [pt 0 0; pt 0 99.95]
              (setStep SCALE (loaded (options initial))) in
  let ratio := (Qabs (y (pt 0 0) - y (pt 0 100))
                / Qabs (y (pt 0 0) - y (pt 0 99.95)))%Q in
  canvasR (applyScaling st) = Some 2%nat /\
  store (applyScaling st) !! 2%nat
    = Some {| width := 120; height := 100; commands := [DrawImage 1%nat 0 0] |} /\
  Qceiling (inject_Z 120 * ratio) = 121 /\
  Qceiling (inject_Z 100 * ratio) = 101 /\
  ~ (widthOf (store (applyScaling st)) 2%nat = Qceiling (inject_Z 120 * ratio) /\
     heightOf (store (applyScaling st)) 2%nat = Qceiling (inject_Z 100 * ratio)).
Proof.
  vm_compute. repeat split. intros [H _]. discriminate H.
Qed.

End Scale.

(** ** The rotate stage *)

Section Rotate.

Import Dom App.
Local Open Scope R_scope.

(** The state after a rotate apply that goes through. *)
Lemma applyRotation_applied st cL cR l0 l1 ls r0 r1 rs :
  canvasL st = Some cL -> canvasR st = Some cR ->
  pointsL st = l0 :: l1 :: ls -> pointsR st = r0 :: r1 :: rs ->
  let angleL := ImageService.calculateAngle l0 l1 in
  let angleR := ImageService.calculateAngle r0 r1 in
  let finish nextL nextR store' :=
    (if assumeEqualZoom (options st) then setStep CROP else setStep SCALE)
      (clearPoints (setCanvasR (Some nextR)
         (setCanvasL (Some nextL) (setStore store' st)))) in
  applyRotation st =
  if rotateLeftImage (options st) then
    let res := ImageService.rotateImage cL (angleR - angleL) (store st) in
    finish (fst res) cR (snd res)
  else
    let res := ImageService.rotateImage cR (angleL - angleR) (store st) in
    finish cL (fst res) (snd res).
Proof.
  intros HcL HcR HpL HpR angleL angleR finish.
  unfold applyRotation. rewrite HcL, HcR, HpL, HpR.
  subst finish. cbv zeta.
  destruct (rotateLeftImage (options st)), (assumeEqualZoom (options st));
    reflexivity.
Qed.



Lemma applyRotation_keeps_reference st cL cR l0 l1 ls r0 r1 rs :
  canvasL st = Some cL -> canvasR st = Some cR ->
  pointsL st = l0 :: l1 :: ls -> pointsR st = r0 :: r1 :: rs ->
  (rotateLeftImage (options st) = false -> canvasL (applyRotation st) = canvasL st) /\
  (rotateLeftImage (options st) = true -> canvasR (applyRotation st) = canvasR st).
Proof.
  intros HcL HcR HpL HpR.
  rewrite (applyRotation_applied st cL cR l0 l1 ls r0 r1 rs) by assumption.
  cbv zeta. rewrite HcL, HcR.
  destruct (rotateLeftImage (options st)), (assumeEqualZoom (options st));
    split; intros H; try discriminate H; reflexivity.
Qed.


End Rotate.

(** ** The crop stage *)

Section CropStage.

Import Dom App.

(** A crop apply never writes the point sets or the history. *)
Lemma applyCropping_collector st :
  pointsL (applyCropping st) = pointsL st /\
  pointsR (applyCropping st) = pointsR st /\
  pointHistory (applyCropping st) = pointHistory st.
Proof.
  unfold applyCropping.
  destruct (canvasL st), (canvasR st), (pointsL st) eqn:HL, (pointsR st) eqn:HR;
    cbn [pointsL pointsR pointHistory setStep setResultCanvas setStore
         setCanvasL setCanvasR]; auto.
Qed.

(** The two sibling stages empty the collector when they go through. *)
Lemma applyRotation_clears st cL cR l0 l1 ls r0 r1 rs :
  canvasL st = Some cL -> canvasR st = Some cR ->
  pointsL st = l0 :: l1 :: ls -> pointsR st = r0 :: r1 :: rs ->
  pointsL (applyRotation st) = [] /\ pointsR (applyRotation st) = [] /\
  pointHistory (applyRotation st) = [] /\
  step (applyRotation st) = (if assumeEqualZoom (options st) then CROP else SCALE).
Proof.
  intros HcL HcR HpL HpR.
  rewrite (applyRotation_applied st cL cR l0 l1 ls r0 r1 rs) by assumption.
  cbv zeta.
  destruct (rotateLeftImage (options st)), (assumeEqualZoom (options st));
    repeat split.
Qed.

Lemma applyScaling_clears st cL cR l0 l1 ls r0 r1 rs :
  canvasL st = Some cL -> canvasR st = Some cR ->
  pointsL st = l0 :: l1 :: ls -> pointsR st = r0 :: r1 :: rs ->
  ~ (y l0 == y l1)%Q -> ~ (y r0 == y r1)%Q ->
  pointsL (applyScaling st) = [] /\ pointsR (applyScaling st) = [] /\
  pointHistory (applyScaling st) = [] /\ step (applyScaling st) = CROP.
Proof.
  intros HcL HcR HpL HpR HnL HnR.
  rewrite (applyScaling_applied st cL cR l0 l1 ls r0 r1 rs) by assumption.
  repeat split.
Qed.

(** An apply below its point count, or without a canvas, changes nothing. *)
Lemma apply_refused st :
  canvasL st = None \/ canvasR st = None \/
  pointsL st = [] \/ pointsR st = [] ->
  applyRotation st = st /\ applyScaling st = st /\ applyCropping st = st.
Proof.
  unfold applyRotation, applyScaling, applyCropping.
  intros [H | [H | [H | H]]]; rewrite H;
    destruct (canvasL st), (canvasR st), (pointsL st) as [| ? [| ? ?]];
    auto.
Qed.

Lemma apply_refused_one_point st p q :
  pointsL st = [p] \/ pointsR st = [q] ->
  applyRotation st = st /\ applyScaling st = st.
Proof.
  unfold applyRotation, applyScaling.
  intros [H | H]; rewrite H;
    destruct (canvasL st), (canvasR st), (pointsL st) as [| ? [| ? ?]];
    auto.
Qed.

(** C3 at the crop stage: with one anchor on each side the crop apply
    goes through, stores a new working pair and the result and enters
    RESULT, and the point sets and the history still hold what they held:
    the collector is not emptied. *)
Theorem applyCropping_keeps_points :
  let st := withPoints [pt 40 50] [pt 50 50]
              (setStep CROP (loaded (options initial))) in
  let st' := applyCropping st in
  step st = CROP /\ step st' = RESULT /\
  canvasL st = Some 0%nat /\ canvasR st = Some 1%nat /\
  canvasL st' = Some 2%nat /\ canvasR st' = Some 3%nat /\
  resultCanvas st' = Some 4%nat /\
  pointsL st' = [pt 40 50] /\ pointsR st' = [pt 50 50] /\
  pointHistory st' = [Left; Right].
Proof. vm_compute. repeat split. Qed.

End CropStage.

(** ** The viewport *)

Section Viewport.

Import InteractiveCanvas.

Lemma positive_not_zero (q : Q) : (0 < q)%Q -> JsMath.eq q 0 = false.
Proof.
  intros Hq. apply not_true_is_false. unfold JsMath.eq.
  rewrite Qeq_bool_iff. Lqa.lra.
Qed.



End Viewport.


(** ** The image service: what every transform leaves alone *)

Section Transforms.

Import Dom.

Lemma length_snoc {A} (l : list A) (a : A) : length (l ++ [a]) = S (length l).
Proof. rewrite length_app, Nat.add_1_r. reflexivity. Qed.

Lemma mergeSideBySide_allocates left right (s : Store) :
  exists cv, ImageService.mergeSideBySide left right s = (length s, s ++ [cv]).
Proof.
  unfold ImageService.mergeSideBySide, bind, getWidth, getHeight,
    createCanvas, setWidth, setHeight, draw, ret.
  rewrite !alter_fresh. eexists. reflexivity.
Qed.

(** X1: each transform of the image service only adds canvases: the store
    after it is the store before it followed by the new canvases (one, or
    two for the crop), and the references returned are those of the new
    canvases.  No canvas that existed is resized or drawn on. *)
Theorem transforms_only_allocate (s : Store) :
  (forall source w h, exists cv,
     ImageService.cloneCanvas source w h s = (length s, s ++ [cv])) /\
  (forall source angle, exists cv,
     ImageService.rotateImage source angle s = (length s, s ++ [cv])) /\
  (forall source ratio, exists cv,
     ImageService.scaleImage source ratio s = (length s, s ++ [cv])) /\
  (forall left right pL pR equalZoom, exists cvL cvR,
     ImageService.cropImagesAligned left right pL pR equalZoom s
     = ((length s, S (length s)), s ++ [cvL; cvR])) /\
  (forall left right, exists cv,
     ImageService.mergeSideBySide left right s = (length s, s ++ [cv])).
Proof.
  split; [| split; [| split; [| split]]].
  - intros. eexists. apply cloneCanvas_run.
  - intros. apply rotateImage_run.
  - intros. eexists. apply scaleImage_run.
  - intros. eexists _, _.
    rewrite cropImagesAligned_run. cbv zeta.
    rewrite <- app_assoc. reflexivity.
  - intros. apply mergeSideBySide_allocates.
Qed.

End Transforms.

(** ** Rotation *)

Section RotationBox.

Import Dom.
Local Open Scope R_scope.

(** X2: a rotation by less than a hundredth of a degree, either way, does
    not turn anything: the result is a new canvas of the size of the source
    with the source drawn on it at the origin. *)
Theorem rotateImage_small_angle_copies
    (s : Store) (source : CanvasRef) (cv : Canvas) (angle : R) :
  s !! source = Some cv -> Rabs angle < 0.01 ->
  ImageService.rotateImage source angle s =
  (length s,
   s ++ [{| width := width cv; height := height cv;
            commands := [DrawImage source 0 0] |}]).
Proof.
  intros Hcv Hsmall. unfold ImageService.rotateImage.
  destruct (Rlt_dec (Rabs angle) 0.01) as [_ | Hge]; [| lra].
  unfold bind, getWidth, getHeight.
  rewrite cloneCanvas_run.
  rewrite (widthOf_lookup _ _ _ Hcv), (heightOf_lookup _ _ _ Hcv).
  unfold JsMath.floor. now rewrite !Qfloor_Z.
Qed.

Lemma rotateImage_small_angle_copies_witness :
  ([photo 100 50] !! 0%nat = Some (photo 100 50) /\ Rabs 0 < 0.01) /\
  ImageService.rotateImage 0%nat 0 [photo 100 50] =
  (1%nat, [photo 100 50;
           {| width := 100; height := 50; commands := [DrawImage 0%nat 0 0] |}]).
Proof.
  assert (H : Rabs 0 < 0.01) by (rewrite Rabs_R0; lra).
  split; [split; [reflexivity | exact H] |].
  exact (rotateImage_small_angle_copies [photo 100 50] 0%nat (photo 100 50) 0
           eq_refl H).
Defined.

End RotationBox.

(** ** Composition side by side *)

Section Merge.

Import Dom.

Lemma Qfloor_half (n : Z) : Qfloor (inject_Z n / 2) = n / 2.
Proof. change 2%Q with (inject_Z 2). symmetry. apply Zdiv_Qdiv. Qed.

(** X5: the merged canvas is as wide as the two images together and as
    high as the higher one; the left image is drawn at the left edge and
    the right image right after it; each image lies inside the height of
    the result, centred so that the margin below is the margin above or
    one pixel more, and the higher image, and both when they are equally
    high, are drawn at the top. *)
Theorem mergeSideBySide_layout
    (s : Store) (left right : CanvasRef) (cl cr : Canvas) :
  s !! left = Some cl -> s !! right = Some cr ->
  exists (out : Canvas) (yL yR : Z),
    ImageService.mergeSideBySide left right s = (length s, s ++ [out]) /\
    width out = width cl + width cr /\
    height out = Z.max (height cl) (height cr) /\
    commands out =
      [FillStyle "#000";
       FillRect 0 0 (inject_Z (width out)) (inject_Z (height out));
       DrawImage left 0 (inject_Z yL);
       DrawImage right (inject_Z (width cl)) (inject_Z yR)] /\
    0 <= yL /\ yL + height cl <= height out /\
    0 <= height out - height cl - 2 * yL <= 1 /\
    0 <= yR /\ yR + height cr <= height out /\
    0 <= height out - height cr - 2 * yR <= 1 /\
    (yL = 0 \/ yR = 0) /\
    (height cl = height cr -> yL = 0 /\ yR = 0).
Proof.
  intros Hl Hr.
  rewrite (mergeSideBySide_run left right cl cr s Hl Hr). cbv zeta.
  rewrite !Qfloor_half.
  eexists _, _, _. split; [reflexivity |]. cbn [width height commands].
  split; [reflexivity |]. split; [reflexivity |]. split; [reflexivity |].
  set (H := Z.max (height cl) (height cr)).
  assert (HL : 0 <= H - height cl) by lia.
  assert (HR : 0 <= H - height cr) by lia.
  assert (Hmax : H = height cl \/ H = height cr) by lia.
  pose proof (Z.div_mod (H - height cl) 2 ltac:(lia)) as DL.
  pose proof (Z.mod_pos_bound (H - height cl) 2 ltac:(lia)) as ML.
  pose proof (Z.div_mod (H - height cr) 2 ltac:(lia)) as DR.
  pose proof (Z.mod_pos_bound (H - height cr) 2 ltac:(lia)) as MR.
  repeat split; lia.
Qed.

Lemma mergeSideBySide_layout_witness :
  ([photo 100 80; photo 100 100] !! 0%nat = Some (photo 100 80) /\
   [photo 100 80; photo 100 100] !! 1%nat = Some (photo 100 100)) /\
  exists out : Canvas,
    ImageService.mergeSideBySide 0%nat 1%nat [photo 100 80; photo 100 100]
    = (2%nat, [photo 100 80; photo 100 100; out]) /\
    width out = 200 /\ height out = 100.
Proof.
  split; [split; reflexivity |].
  destruct (mergeSideBySide_layout [photo 100 80; photo 100 100] 0%nat 1%nat
              (photo 100 80) (photo 100 100) eq_refl eq_refl)
    as (out & yL & yR & Hrun & Hw & Hh & _).
  exists out. repeat split; assumption.
Defined.

End Merge.

(** ** The crop window and the result of the crop stage *)

Section CropWindow.

Import Dom App.

Lemma crop_stays_inside
    (s : Store) (left right : CanvasRef) (pL pR : Point) (equalZoom : bool) :
  insideCanvas s (Some left) pL -> insideCanvas s (Some right) pR ->
  exists (outL outR : Canvas) (fw fh sxL syL sxR syR : Z),
    ImageService.cropImagesAligned left right pL pR equalZoom s
      = ((length s, S (length s)), s ++ [outL; outR]) /\
    width outL = fw /\ height outL = fh /\ width outR = fw /\ height outR = fh /\
    commands outL =
      [DrawImageCropped left (inject_Z sxL) (inject_Z syL)
         (inject_Z fw) (inject_Z fh) 0 0 (inject_Z fw) (inject_Z fh)] /\
    commands outR =
      [DrawImageCropped right (inject_Z sxR) (inject_Z syR)
         (inject_Z fw) (inject_Z fh) 0 0 (inject_Z fw) (inject_Z fh)] /\
    0 <= fw /\ 0 <= fh /\
    0 <= sxL /\ sxL + fw <= widthOf s left /\
    0 <= syL /\ syL + fh <= heightOf s left /\
    0 <= sxR /\ sxR + fw <= widthOf s right /\
    0 <= syR /\ syR + fh <= heightOf s right.
Proof.
  intros (HxL0 & HxL1 & HyL0 & HyL1) (HxR0 & HxR1 & HyR0 & HyR1).
  rewrite cropImagesAligned_run. cbv zeta.
  rewrite <- app_assoc.
  destruct (crop_window_inside (widthOf s left) (widthOf s right) (x pL) (x pR)
              HxL0 HxL1 HxR0 HxR1) as (X1 & X2 & X3 & X4 & X5 & X6).
  destruct (crop_window_inside (heightOf s left) (heightOf s right) (y pL) (y pR)
              HyL0 HyL1 HyR0 HyR1) as (Y1 & Y2 & Y3 & Y4 & Y5 & Y6).
  eexists _, _, _, _, _, _, _, _.
  split; [reflexivity |]. cbn [width height commands].
  repeat split; solve [reflexivity | assumption | lia].
Qed.

(** X6: for anchors inside their images the crop never reaches outside a
    source: the common size is not negative, and the rectangle read from
    each source starts at or after its origin and ends at or before its
    right and bottom edges. *)
Theorem cropImagesAligned_inside
    (s : Store) (left right : CanvasRef) (cl cr : Canvas)
    (pL pR : Point) (equalZoom : bool) :
  s !! left = Some cl -> s !! right = Some cr ->
  (0 <= x pL)%Q -> (x pL <= inject_Z (width cl))%Q ->
  (0 <= y pL)%Q -> (y pL <= inject_Z (height cl))%Q ->
  (0 <= x pR)%Q -> (x pR <= inject_Z (width cr))%Q ->
  (0 <= y pR)%Q -> (y pR <= inject_Z (height cr))%Q ->
  exists (outL outR : Canvas) (fw fh sxL syL sxR syR : Z),
    ImageService.cropImagesAligned left right pL pR equalZoom s
      = ((length s, S (length s)), s ++ [outL; outR]) /\
    width outL = fw /\ height outL = fh /\ width outR = fw /\ height outR = fh /\
    commands outL =
      [DrawImageCropped left (inject_Z sxL) (inject_Z syL)
         (inject_Z fw) (inject_Z fh) 0 0 (inject_Z fw) (inject_Z fh)] /\
    commands outR =
      [DrawImageCropped right (inject_Z sxR) (inject_Z syR)
         (inject_Z fw) (inject_Z fh) 0 0 (inject_Z fw) (inject_Z fh)] /\
    0 <= fw /\ 0 <= fh /\
    0 <= sxL /\ sxL + fw <= width cl /\ 0 <= syL /\ syL + fh <= height cl /\
    0 <= sxR /\ sxR + fw <= width cr /\ 0 <= syR /\ syR + fh <= height cr.
Proof.
  intros Hl Hr HxL0 HxL1 HyL0 HyL1 HxR0 HxR1 HyR0 HyR1.
  rewrite <- (widthOf_lookup _ _ _ Hl), <- (heightOf_lookup _ _ _ Hl),
    <- (widthOf_lookup _ _ _ Hr), <- (heightOf_lookup _ _ _ Hr) in *.
  apply crop_stays_inside; cbn; auto.
Qed.

Lemma cropImagesAligned_inside_witness :
  let s := [photo 100 100; photo 120 100] in
  (s !! 0%nat = Some (photo 100 100) /\ s !! 1%nat = Some (photo 120 100)) /\
  exists (outL outR : Canvas) (fw fh sxL syL sxR syR : Z),
    ImageService.cropImagesAligned 0%nat 1%nat (pt 40.5 50) (pt 50 50) false s
      = ((2%nat, 3%nat), s ++ [outL; outR]) /\
    commands outL =
      [DrawImageCropped 0%nat (inject_Z sxL) (inject_Z syL)
         (inject_Z fw) (inject_Z fh) 0 0 (inject_Z fw) (inject_Z fh)] /\
    0 <= sxL /\ sxL + fw <= 100.
Proof.
  intros s. split; [split; reflexivity |].
  destruct (cropImagesAligned_inside s 0%nat 1%nat (photo 100 100) (photo 120 100)
              (pt 40.5 50) (pt 50 50) false eq_refl eq_refl
              ltac:(discriminate) ltac:(discriminate) ltac:(discriminate)
              ltac:(discriminate) ltac:(discriminate) ltac:(discriminate)
              ltac:(discriminate) ltac:(discriminate))
    as (outL & outR & fw & fh & sxL & syL & sxR & syR & Hrun & _ & _ & _ & _ &
        HcL & _ & _ & _ & H0 & H1 & _).
  exists outL, outR, fw, fh, sxL, syL, sxR, syR.
  repeat split; assumption.
Defined.

End CropWindow.

(** ** The stages, seen from the controller *)

Section Controller.

Import Dom App.

Lemma applyCropping_applied st cL cR l0 ls r0 rs :
  canvasL st = Some cL -> canvasR st = Some cR ->
  pointsL st = l0 :: ls -> pointsR st = r0 :: rs ->
  let cut := ImageService.cropImagesAligned cL cR l0 r0
               (assumeEqualZoom (options st)) (store st) in
  let merged := ImageService.mergeSideBySide (fst (fst cut)) (snd (fst cut)) (snd cut) in
  applyCropping st =
  setStep RESULT (setResultCanvas (Some (fst merged)) (setStore (snd merged)
    (setCanvasR (Some (snd (fst cut))) (setCanvasL (Some (fst (fst cut)))
       (setStore (snd cut) st))))).
Proof.
  intros HcL HcR HpL HpR. unfold applyCropping.
  rewrite HcL, HcR, HpL, HpR. reflexivity.
Qed.

(** X7: a crop apply that goes through adds three canvases to the store,
    the two crops and the result, and makes them the working pair and the
    result; the two crops have one size, the result is twice as wide and
    as high as a crop, with both crops drawn at the top, the right one
    right after the left one: no bar is left above, below or between.  The
    step is RESULT and the source images are kept. *)
Theorem applyCropping_result
    (st : State) (cL cR : CanvasRef) (l0 r0 : Point) (ls rs : list Point) :
  canvasL st = Some cL -> canvasR st = Some cR ->
  pointsL st = l0 :: ls -> pointsR st = r0 :: rs ->
  let st' := applyCropping st in
  let nl := length (store st) in
  exists outL outR out : Canvas,
    store st' = store st ++ [outL; outR; out] /\
    canvasL st' = Some nl /\ canvasR st' = Some (S nl) /\
    resultCanvas st' = Some (S (S nl)) /\
    width outR = width outL /\ height outR = height outL /\
    width out = 2 * width outL /\ height out = height outL /\
    commands out =
      [FillStyle "#000";
       FillRect 0 0 (inject_Z (width out)) (inject_Z (height out));
       DrawImage nl 0 0;
       DrawImage (S nl) (inject_Z (width outL)) 0] /\
    step st' = RESULT /\ srcL st' = srcL st /\ srcR st' = srcR st.
Proof.
  intros HcL HcR HpL HpR st' nl. subst st'.
  rewrite (applyCropping_applied st cL cR l0 ls r0 rs) by assumption.
  cbv zeta. rewrite cropImagesAligned_run. cbv zeta. cbn [fst snd].
  match goal with
  | |- context [ImageService.mergeSideBySide _ _ ((?s0 ++ [?a]) ++ [?b])] =>
      set (cutL := a); set (cutR := b);
      assert (HL : ((s0 ++ [cutL]) ++ [cutR]) !! length s0 = Some cutL);
      [rewrite lookup_kept by (rewrite length_snoc; lia); apply lookup_fresh |];
      assert (HR : ((s0 ++ [cutL]) ++ [cutR]) !! S (length s0) = Some cutR);
      [rewrite <- (length_snoc s0 cutL); apply lookup_fresh |]
  end.
  rewrite (mergeSideBySide_run _ _ _ _ _ HL HR). cbv zeta.
  cbn [fst snd step srcL srcR canvasL canvasR resultCanvas store
       setStep setResultCanvas setStore setCanvasL setCanvasR].
  eexists cutL, cutR, _.
  split.
  { rewrite <- !app_assoc. cbn [app]. reflexivity. }
  rewrite !length_snoc.
  subst cutL cutR. cbn [width height commands].
  rewrite Z.max_id, Z.sub_diag.
  repeat split. lia.
Qed.

Lemma applyCropping_result_witness :
  let st := withPoints [pt 40 50] [pt 50 50]
              (setStep CROP (loaded (options initial))) in
  (canvasL st = Some 0%nat /\ canvasR st = Some 1%nat /\
   pointsL st = [pt 40 50] /\ pointsR st = [pt 50 50]) /\
  exists outL outR out : Canvas,
    store (applyCropping st) = store st ++ [outL; outR; out] /\
    resultCanvas (applyCropping st) = Some 4%nat /\
    width out = 2 * width outL /\ height out = height outL.
Proof.
  intros st. split; [repeat split |].
  destruct (applyCropping_result st 0%nat 1%nat (pt 40 50) (pt 50 50) [] []
              eq_refl eq_refl eq_refl eq_refl)
    as (outL & outR & out & Hs & _ & _ & Hres & _ & _ & Hw & Hh & _).
  exists outL, outR, out. repeat split; assumption.
Defined.

Lemma applyCropping_grows st cL cR l0 ls r0 rs :
  canvasL st = Some cL -> canvasR st = Some cR ->
  pointsL st = l0 :: ls -> pointsR st = r0 :: rs ->
  length (store (applyCropping st)) = S (S (S (length (store st)))).
Proof.
  intros HcL HcR HpL HpR.
  rewrite (applyCropping_applied st cL cR l0 ls r0 rs) by assumption.
  cbv zeta. rewrite cropImagesAligned_run. cbv zeta. cbn [fst snd].
  match goal with
  | |- context [ImageService.mergeSideBySide ?a ?b ?s0] =>
      destruct (mergeSideBySide_allocates a b s0) as [cv ->]
  end.
  cbn [fst snd store setStep setResultCanvas setStore setCanvasL setCanvasR].
  now rewrite !length_snoc.
Qed.

Lemma applyRotation_grows st cL cR l0 l1 ls r0 r1 rs :
  canvasL st = Some cL -> canvasR st = Some cR ->
  pointsL st = l0 :: l1 :: ls -> pointsR st = r0 :: r1 :: rs ->
  length (store (applyRotation st)) = S (length (store st)).
Proof.
  intros HcL HcR HpL HpR.
  rewrite (applyRotation_applied st cL cR l0 l1 ls r0 r1 rs) by assumption.
  cbv zeta.
  destruct (rotateLeftImage (options st)), (assumeEqualZoom (options st));
    match goal with
    | |- context [ImageService.rotateImage ?c ?a ?s0] =>
        destruct (rotateImage_run c a s0) as [cv ->]
    end; cbn; apply length_snoc.
Qed.

Lemma applyScaling_changes st cL cR l0 l1 ls r0 r1 rs :
  canvasL st = Some cL -> canvasR st = Some cR ->
  pointsL st = l0 :: l1 :: ls -> pointsR st = r0 :: r1 :: rs ->
  length (store (applyScaling st)) = S (length (store st)) \/
  length (alerts (applyScaling st)) = S (length (alerts st)).
Proof.
  intros HcL HcR HpL HpR. unfold applyScaling.
  rewrite HcL, HcR, HpL, HpR.
  destruct (JsMath.eq (JsMath.abs (y l0 - y l1)) 0
            || JsMath.eq (JsMath.abs (y r0 - y r1)) 0).
  - right. cbn. apply length_snoc.
  - left. rewrite scaleImage_run. cbn. apply length_snoc.
Qed.

Lemma state_differs_by_store (st st' : State) :
  length (store st') <> length (store st) -> st' <> st.
Proof. intros H E. apply H. now rewrite E. Qed.

Lemma state_differs_by_alerts (st st' : State) :
  length (alerts st') <> length (alerts st) -> st' <> st.
Proof. intros H E. apply H. now rewrite E. Qed.

(** X8: an apply leaves the state as it is exactly when it is refused:
    rotation and scaling when a working canvas is missing or a side has
    fewer than two points, cropping when a working canvas is missing or a
    side has no point.  A scaling with two points a side always changes
    the state, by its result or by its message. *)
Theorem apply_refused_iff (st : State) :
  (applyRotation st = st <->
   canvasL st = None \/ canvasR st = None \/
   (length (pointsL st) < 2)%nat \/ (length (pointsR st) < 2)%nat) /\
  (applyScaling st = st <->
   canvasL st = None \/ canvasR st = None \/
   (length (pointsL st) < 2)%nat \/ (length (pointsR st) < 2)%nat) /\
  (applyCropping st = st <->
   canvasL st = None \/ canvasR st = None \/
   (length (pointsL st) < 1)%nat \/ (length (pointsR st) < 1)%nat).
Proof.
  destruct (canvasL st) as [cL |] eqn:HcL;
    [| destruct (apply_refused st (or_introl HcL)) as (-> & -> & ->); tauto].
  destruct (canvasR st) as [cR |] eqn:HcR;
    [| destruct (apply_refused st (or_intror (or_introl HcR))) as (-> & -> & ->);
       tauto].
  destruct (pointsL st) as [| l0 ls] eqn:HpL;
    [destruct (apply_refused st (or_intror (or_intror (or_introl HpL))))
       as (-> & -> & ->); cbn; intuition lia |].
  destruct (pointsR st) as [| r0 rs] eqn:HpR;
    [destruct (apply_refused st (or_intror (or_intror (or_intror HpR))))
       as (-> & -> & ->); cbn; intuition lia |].
  assert (Hcrop : applyCropping st <> st).
  { apply state_differs_by_store.
    rewrite (applyCropping_grows st cL cR l0 ls r0 rs) by assumption. lia. }
  split; [| split].
  - destruct ls as [| l1 ls];
      [destruct (apply_refused_one_point st l0 r0 (or_introl HpL)) as (-> & _);
       cbn; intuition lia |].
    destruct rs as [| r1 rs];
      [destruct (apply_refused_one_point st l0 r0 (or_intror HpR)) as (-> & _);
       cbn; intuition lia |].
    split.
    + intros E. exfalso. revert E. apply state_differs_by_store.
      rewrite (applyRotation_grows st cL cR l0 l1 ls r0 r1 rs) by assumption. lia.
    + cbn. intros [H | [H | [H | H]]]; try discriminate H; lia.
  - destruct ls as [| l1 ls];
      [destruct (apply_refused_one_point st l0 r0 (or_introl HpL)) as (_ & ->);
       cbn; intuition lia |].
    destruct rs as [| r1 rs];
      [destruct (apply_refused_one_point st l0 r0 (or_intror HpR)) as (_ & ->);
       cbn; intuition lia |].
    split.
    + intros E. exfalso. revert E.
      destruct (applyScaling_changes st cL cR l0 l1 ls r0 r1 rs HcL HcR HpL HpR)
        as [H | H].
      * apply state_differs_by_store. lia.
      * apply state_differs_by_alerts. lia.
    + cbn. intros [H | [H | [H | H]]]; try discriminate H; lia.
  - split; [intros E; now destruct Hcrop |].
    cbn. intros [H | [H | [H | H]]]; try discriminate H; lia.
Qed.

End Controller.

(** ** Starting, resetting and unwinding *)

Section StartReset.

Import Dom App.

(** X9: starting without both source images changes nothing.  With both,
    and equal framing not assumed, it empties the collector and touches
    neither the store nor the working canvases nor the result; with equal
    framing assumed it adds the merged canvas to the store and leaves the
    collector as it was. *)
Theorem startProcessing_effects (st : State) :
  (srcL st = None \/ srcR st = None -> startProcessing st = st) /\
  (srcL st <> None -> srcR st <> None ->
   assumeEqualFraming (options st) = false ->
   pointsL (startProcessing st) = [] /\ pointsR (startProcessing st) = [] /\
   pointHistory (startProcessing st) = [] /\
   store (startProcessing st) = store st /\
   resultCanvas (startProcessing st) = resultCanvas st /\
   options (startProcessing st) = options st) /\
  (srcL st <> None -> srcR st <> None ->
   assumeEqualFraming (options st) = true ->
   pointsL (startProcessing st) = pointsL st /\
   pointsR (startProcessing st) = pointsR st /\
   pointHistory (startProcessing st) = pointHistory st /\
   resultCanvas (startProcessing st) = Some (length (store st)) /\
   length (store (startProcessing st)) = S (length (store st))).
Proof.
  unfold startProcessing.
  destruct (srcL st) as [sL |], (srcR st) as [sR |];
    (split; [| split]); try tauto; try (intros [H | H]; discriminate H).
  - intros _ _ Hf. rewrite Hf.
    destruct (assumeEqualTilt (options st)), (assumeEqualZoom (options st));
      repeat split.
  - intros _ _ Hf. rewrite Hf.
    destruct (mergeSideBySide_allocates sL sR (store st)) as [cv ->].
    cbn [fst snd pointsL pointsR pointHistory resultCanvas store
         setStep setResultCanvas setStore].
    rewrite length_snoc. repeat split.
Qed.

(** X10: a reset goes to UPLOAD with no source, no working canvas, no
    result and an empty collector, keeping the options; in the state it
    leaves, starting, each apply, an undo and a second reset change
    nothing. *)
Theorem resetAll_blocks (st : State) :
  let r := resetAll st in
  step r = UPLOAD /\
  srcL r = None /\ srcR r = None /\ canvasL r = None /\ canvasR r = None /\
  resultCanvas r = None /\
  pointsL r = [] /\ pointsR r = [] /\ pointHistory r = [] /\
  options r = options st /\
  startProcessing r = r /\ applyRotation r = r /\ applyScaling r = r /\
  applyCropping r = r /\ undoLastPoint r = r /\ resetAll r = r.
Proof.
  intros r. subst r. destruct st. vm_compute. repeat split.
Qed.

(** X11: a rotation apply that goes through empties the collector and
    moves to CROP when equal zoom is assumed and to SCALE otherwise; the
    source images, the result and the options are not touched. *)
Theorem applyRotation_advances
    (st : State) (cL cR : CanvasRef) (l0 l1 r0 r1 : Point) (ls rs : list Point) :
  canvasL st = Some cL -> canvasR st = Some cR ->
  pointsL st = l0 :: l1 :: ls -> pointsR st = r0 :: r1 :: rs ->
  let st' := applyRotation st in
  step st' = (if assumeEqualZoom (options st) then CROP else SCALE) /\
  pointsL st' = [] /\ pointsR st' = [] /\ pointHistory st' = [] /\
  srcL st' = srcL st /\ srcR st' = srcR st /\
  resultCanvas st' = resultCanvas st /\ options st' = options st /\
  alerts st' = alerts st.
Proof.
  intros HcL HcR HpL HpR st'. subst st'.
  rewrite (applyRotation_applied st cL cR l0 l1 ls r0 r1 rs) by assumption.
  cbv zeta.
  destruct (rotateLeftImage (options st)), (assumeEqualZoom (options st));
    repeat split.
Qed.

Lemma applyRotation_advances_witness :
  let st := withPoints [pt 0 0; pt 10 0] [pt 0 0; pt 10 1]
              (setStep ROTATE (loaded (options initial))) in
  (canvasL st = Some 0%nat /\ canvasR st = Some 1%nat /\
   pointsL st = [pt 0 0; pt 10 0] /\ pointsR st = [pt 0 0; pt 10 1]) /\
  step (applyRotation st) = SCALE /\
  pointsL (applyRotation st) = [] /\ pointsR (applyRotation st) = [] /\
  pointHistory (applyRotation st) = [].
Proof.
  intros st. split; [repeat split |].
  destruct (applyRotation_advances st 0%nat 1%nat (pt 0 0) (pt 10 0) (pt 0 0) (pt 10 1)
              [] [] eq_refl eq_refl eq_refl eq_refl)
    as (Hs & HL & HR & HH & _).
  repeat split; assumption.
Defined.

Lemma addPoints_snoc adds side p st :
  addPoints (adds ++ [(side, p)]) st = handleAddPoint side p (addPoints adds st).
Proof. unfold addPoints. now rewrite fold_left_app. Qed.

Lemma undoTimes_succ n st :
  undoTimes (S n) st = undoTimes n (undoLastPoint st).
Proof. unfold undoTimes. apply Nat.iter_succ_r. Qed.

(** X12: undoing unwinds the additions in reverse order: after any points
    are added, undoing as many times as the later ones were added gives the
    state in which only the earlier ones had been added, whatever the
    sides were; and on an empty history any number of undos does
    nothing. *)
Theorem undo_unwinds (st : State) :
  (forall earlier later : list (Side * Point),
     undoTimes (length later) (addPoints (earlier ++ later) st)
     = addPoints earlier st) /\
  (pointHistory st = [] -> forall n, undoTimes n st = st).
Proof.
  split.
  - intros earlier later. induction later as [| [side p] later IH] using rev_ind.
    + now rewrite app_nil_r.
    + rewrite app_assoc, length_snoc, undoTimes_succ, addPoints_snoc.
      now rewrite undo_after_add.
  - intros Hh n. induction n as [| n IH]; [reflexivity |].
    rewrite undoTimes_succ, (undoLastPoint_empty st Hh). exact IH.
Qed.

End StartReset.

(** ** Zooming *)

Section ZoomPan.

Import InteractiveCanvas CanvasEvents.
Local Open Scope Q_scope.


End ZoomPan.

(** ** Clicking *)

Section Click.

Import InteractiveCanvas CanvasEvents.

Lemma Q2R_25 : Q2R 25 = 25%R.
Proof. unfold Q2R. cbn. lra. Qed.

(** Moving less than five pixels, said without the square root. *)
Lemma click_distance (d : Q) :
  (0 <= d)%Q -> (CanvasEvents.sqrt d < 5)%R <-> (d < 25)%Q.
Proof.
  intros Hd. unfold CanvasEvents.sqrt.
  assert (H5 : 5%R = R_sqrt.sqrt 25).
  { replace 25%R with (5 * 5)%R by lra. rewrite sqrt_square; lra. }
  assert (H0 : (0 <= Q2R d)%R).
  { apply Qle_Rle in Hd. replace (Q2R 0) with 0%R in Hd; [exact Hd |].
    unfold Q2R. cbn. lra. }
  rewrite H5. split.
  - intros H. apply sqrt_lt_0_alt in H. rewrite <- Q2R_25 in H.
    now apply Rlt_Qlt.
  - intros H. apply sqrt_lt_1_alt. split; [exact H0 |].
    rewrite <- Q2R_25. now apply Qlt_Rlt.
Qed.

Lemma squares_nonneg (a b : Q) : (0 <= a * a + b * b)%Q.
Proof. Lqa.nra. Qed.

Lemma handleMouseUp_some props canvas e w p :
  snd (handleMouseUp props canvas e w) = Some p ->
  exists img rect,
    image props = Some img /\ canvas = Some rect /\ active props = true /\
    ((clientX e - x (clickStartRef w)) * (clientX e - x (clickStartRef w))
     + (clientY e - y (clickStartRef w)) * (clientY e - y (clickStartRef w)) < 25)%Q /\
    (length (points props) < maxPoints props)%nat /\
    p = {| x := (clientX e - DOMRect.left rect - x (offset (view w))) / scale (view w);
           y := (clientY e - DOMRect.top rect - y (offset (view w))) / scale (view w) |} /\
    (0 <= x p)%Q /\ (x p <= width img)%Q /\ (0 <= y p)%Q /\ (y p <= height img)%Q.
Proof.
  unfold handleMouseUp. cbn [snd].
  destruct (Rlt_dec _ 5) as [Hd | _]; [| discriminate].
  apply click_distance in Hd; [| apply squares_nonneg].
  destruct (active props); [| discriminate].
  destruct (image props) as [img |]; [| discriminate].
  destruct canvas as [rect |]; [| discriminate].
  destruct (Nat.ltb_spec (length (points props)) (maxPoints props)) as [Hl | _];
    [| discriminate].
  match goal with
  | |- (if ?b then _ else _) = _ -> _ => destruct b eqn:Hb; [| discriminate]
  end.
  intros H. injection H as <-.
  unfold le in Hb. rewrite !andb_true_iff, !Qle_bool_iff in Hb.
  destruct Hb as (((B1 & B2) & B3) & B4).
  exists img, rect. cbn [x y]. repeat split; assumption.
Qed.

End Click.

(** ** The fitted view *)

Section Fit.

Import InteractiveCanvas.
Local Open Scope Q_scope.

Lemma scaled_between (u q r : Q) :
  0 <= u <= 1 # 1000 -> 0 <= q ->
  (1 - u) * q <= r <= (1 + u) * q -> 0.999 * q <= r <= 1.001 * q.
Proof. intros [H0 H1] Hq [Ha Hb]. split; Lqa.nra. Qed.

Section WithRelativeError.

Variable fl : Q -> Q.
Variable u : Q.
Hypothesis fl_relative : Binary64.relative u fl.
Hypothesis u_small : 0 <= u <= 1 # 1000.

Lemma fl_near (q : Q) :
  (1 # 1099511627776) <= q <= 1099511627776 -> 0.999 * q <= fl q <= 1.001 * q.
Proof.
  intros [H1 H2]. apply (scaled_between u); [exact u_small | Lqa.lra |].
  apply fl_relative. split.
  - apply Qle_trans with (1 # 1099511627776); [discriminate | exact H1].
  - apply Qle_trans with 1099511627776; [exact H2 | discriminate].
Qed.

(** The ratio of a container side to an image side, as computed. *)
Lemma fit_ratio (i c : Q) :
  1 <= i <= 2147483647 -> 1 <= c <= 2147483647 ->
  (1 # 4294967296) <= fl (c / i) /\ fl (c / i) * i <= 1.001 * c.
Proof.
  intros [Hi1 Hi2] [Hc1 Hc2].
  assert (Hi0 : 0 < i) by Lqa.lra.
  assert (Hlow : (1 # 2147483648) <= c / i).
  { apply Qle_shift_div_l; [exact Hi0 | Lqa.lra]. }
  assert (Hup : c / i <= 2147483647).
  { apply Qle_shift_div_r; [exact Hi0 | Lqa.lra]. }
  assert (Hback : c / i * i == c) by (field; Lqa.lra).
  set (q := c / i) in *.
  destruct (fl_near q) as [F1 F2]; [split; Lqa.lra |].
  split; [Lqa.lra |].
  apply Qle_trans with (1.001 * q * i); [| Lqa.lra].
  apply Qmult_le_compat_r; Lqa.lra.
Qed.

(** One axis of the fitted view: [i] and [c] are the sides of the image
    and of the container, [m] the smaller of the two computed ratios. *)
Lemma fit_axis (i c m : Q) :
  1 <= i <= 2147483647 -> 1 <= c <= 2147483647 ->
  (1 # 4294967296) <= m -> m * i <= 1.001 * c ->
  let s := fl (m * fl 0.95) in
  let d := fl (i * s) in
  let off := fl (fl (c - d) / 2) in
  0 < s /\ 0 < off /\ off + i * s < c.
Proof.
  intros [Hi1 Hi2] [Hc1 Hc2] Hm1 Hm2 s d off.
  assert (Hmup : m <= 1.001 * c) by Lqa.nra.
  destruct (fl_near 0.95) as [K1 K2]; [split; discriminate |].
  set (k := fl 0.95) in *.
  assert (Hmk1 : (1 # 4294967296) * 0.949 <= m * k) by Lqa.nra.
  assert (Hmk2 : m * k <= 0.951 * m) by Lqa.nra.
  destruct (fl_near (m * k)) as [S1 S2]; [split; Lqa.lra |].
  fold s in S1, S2.
  assert (Hs1 : (1 # 4294967296) * 0.948 <= s) by Lqa.lra.
  assert (Hs2 : s <= 0.952 * m) by Lqa.lra.
  clear K1 K2 Hmk1 Hmk2 S1 S2.
  assert (HP1 : (1 # 4294967296) * 0.948 <= i * s) by Lqa.nra.
  assert (HP2 : i * s <= 0.953 * c).
  { apply Qle_trans with (0.952 * (m * i)); [| Lqa.lra].
    clear - Hs2 Hi1. Lqa.nra. }
  set (P := i * s) in *.
  destruct (fl_near P) as [D1 D2]; [split; Lqa.lra |].
  fold d in D1, D2.
  destruct (fl_near (c - d)) as [T1 T2]; [split; Lqa.lra |].
  set (t := fl (c - d)) in *.
  assert (Hhalf : t / 2 == t * (1 # 2)) by (unfold Qdiv; reflexivity).
  set (h := t / 2) in *.
  destruct (fl_near h) as [O1 O2]; [split; Lqa.lra |].
  fold off in O1, O2.
  split; [Lqa.lra |]. split; Lqa.lra.
Qed.

End WithRelativeError.

(** X18: the fitted view as the code computes it, every quotient,
    product and difference rounded with a relative error of at most a
    thousandth: for an image and a container whose sides are between 1
    and the largest canvas side, the scale is positive and the whole
    image is shown strictly inside the container, with a positive margin
    before it and after it on both axes; the view is marked initialized
    and a drag in progress is left as it is. *)
Theorem fitToContainer_inside_rounded
    (fl : Q -> Q) (u : Q) (img rect : Dimensions) (v : View) :
  Binary64.relative u fl -> 0 <= u <= 1 # 1000 ->
  1 <= width img <= inject_Z Binary64.maxCanvasSide ->
  1 <= height img <= inject_Z Binary64.maxCanvasSide ->
  1 <= width rect <= inject_Z Binary64.maxCanvasSide ->
  1 <= height rect <= inject_Z Binary64.maxCanvasSide ->
  let v' := Binary64.fitToContainer fl (Some img) (Some rect) v in
  0 < scale v' /\
  0 < x (offset v') /\ 0 < y (offset v') /\
  x (offset v') + width img * scale v' < width rect /\
  y (offset v') + height img * scale v' < height rect /\
  initialized v' = true /\
  isDragging v' = isDragging v /\ dragStart v' = dragStart v.
Proof.
  intros Hfl Hu Hiw Hih Hcw Hch v'. subst v'.
  change (inject_Z Binary64.maxCanvasSide) with 2147483647 in *.
  unfold Binary64.fitToContainer, Binary64.div, Binary64.mul, Binary64.sub.
  rewrite (positive_not_zero (width rect)), (positive_not_zero (height rect))
    by Lqa.lra.
  cbn [orb scale offset x y isDragging dragStart initialized].
  destruct (fit_ratio fl u Hfl Hu (width img) (width rect) Hiw Hcw) as [W1 W2].
  destruct (fit_ratio fl u Hfl Hu (height img) (height rect) Hih Hch) as [H1 H2].
  set (sW := fl (width rect / width img)) in *.
  set (sH := fl (height rect / height img)) in *.
  unfold JsMath.min.
  assert (Hm : (1 # 4294967296) <= Qmin sW sH) by (now apply Q.min_glb).
  assert (HmW : Qmin sW sH * width img <= 1.001 * width rect).
  { apply Qle_trans with (sW * width img); [| exact W2].
    apply Qmult_le_compat_r; [apply Q.le_min_l | Lqa.lra]. }
  assert (HmH : Qmin sW sH * height img <= 1.001 * height rect).
  { apply Qle_trans with (sH * height img); [| exact H2].
    apply Qmult_le_compat_r; [apply Q.le_min_r | Lqa.lra]. }
  destruct (fit_axis fl u Hfl Hu (width img) (width rect) (Qmin sW sH) Hiw Hcw Hm HmW)
    as (Sx & Ox & Ix).
  destruct (fit_axis fl u Hfl Hu (height img) (height rect) (Qmin sW sH) Hih Hch Hm HmH)
    as (_ & Oy & Iy).
  repeat split; assumption.
Qed.

Lemma fitToContainer_inside_rounded_witness :
  let fl := fun q : Q => q in
  let img := {| width := 100; height := 50 |} in
  let rect := {| width := 400; height := 300 |} in
  let v' := Binary64.fitToContainer fl (Some img) (Some rect) initialView in
  (Binary64.relative 0 fl /\ 0 <= 0 <= 1 # 1000) /\
  0 < scale v' /\
  0 < x (offset v') /\ 0 < y (offset v') /\
  x (offset v') + width img * scale v' < width rect /\
  y (offset v') + height img * scale v' < height rect.
Proof.
  intros fl img rect v'.
  assert (Hfl : Binary64.relative 0 fl).
  { intros q _. unfold fl. split; Lqa.lra. }
  assert (Hu : 0 <= 0 <= 1 # 1000) by (split; discriminate).
  split; [exact (conj Hfl Hu) |].
  destruct (fitToContainer_inside_rounded fl 0 img rect initialView Hfl Hu)
    as (Hs & Hx & Hy & Hix & Hiy & _);
    try (split; discriminate).
  exact (conj Hs (conj Hx (conj Hy (conj Hix Hiy)))).
Defined.

End Fit.

(** ** A whole session *)

Section SessionInvariant.

Import Dom App Session.

Lemma inv_of_empty st :
  pointsL st = [] -> pointsR st = [] -> pointHistory st = [] -> sessionInv st.
Proof.
  intros HL HR HH. split.
  - split; rewrite HH; [rewrite HL | rewrite HR]; reflexivity.
  - intros limit _. rewrite HL, HR. cbn. repeat split; auto with arith.
Qed.

Lemma inv_no_stage st st' :
  collectorConsistent st ->
  pointsL st' = pointsL st -> pointsR st' = pointsR st ->
  pointHistory st' = pointHistory st ->
  maxPointsFor (step st') = None -> sessionInv st'.
Proof.
  intros [HL HR] EL ER EH Hnone. split.
  - split; rewrite EH; [rewrite EL | rewrite ER]; assumption.
  - intros limit Hlimit. rewrite Hnone in Hlimit. discriminate Hlimit.
Qed.

Lemma inv_same st st' :
  sessionInv st ->
  step st' = step st -> store st' = store st ->
  canvasL st' = canvasL st -> canvasR st' = canvasR st ->
  pointsL st' = pointsL st -> pointsR st' = pointsR st ->
  pointHistory st' = pointHistory st -> sessionInv st'.
Proof.
  intros [[HL HR] Hb] Es Est EcL EcR EL ER EH. split.
  - split; rewrite EH; [rewrite EL | rewrite ER]; assumption.
  - intros limit Hlimit. rewrite Es in Hlimit.
    rewrite Est, EcL, EcR, EL, ER. now apply Hb.
Qed.

Lemma Forall_removelast {A} (P : A -> Prop) (l : list A) :
  Forall P l -> Forall P (removelast l).
Proof.
  intros H. rewrite removelast_firstn_len. now apply Forall_take.
Qed.

Lemma length_removelast_le {A} (l : list A) :
  (length (removelast l) <= length l)%nat.
Proof. rewrite removelast_firstn_len, length_take. lia. Qed.

Lemma inv_undo st : sessionInv st -> sessionInv (undoLastPoint st).
Proof.
  intros [Hc Hb]. split; [now apply consistent_undo |].
  intros limit Hlimit.
  assert (Hstep : step (undoLastPoint st) = step st /\
                  store (undoLastPoint st) = store st /\
                  canvasL (undoLastPoint st) = canvasL st /\
                  canvasR (undoLastPoint st) = canvasR st /\
                  (pointsL (undoLastPoint st) = pointsL st \/
                   pointsL (undoLastPoint st) = removelast (pointsL st)) /\
                  (pointsR (undoLastPoint st) = pointsR st \/
                   pointsR (undoLastPoint st) = removelast (pointsR st))).
  { unfold undoLastPoint.
    destruct (length (pointHistory st) =? 0)%nat; [tauto |].
    destruct (pointHistory st !! (length (pointHistory st) - 1)%nat) as [[] |];
      cbn; tauto. }
  destruct Hstep as (Es & Est & EcL & EcR & EL & ER).
  rewrite Es in Hlimit. destruct (Hb limit Hlimit) as (BL & BR & FL & FR).
  rewrite Est, EcL, EcR.
  pose proof (length_removelast_le (pointsL st)).
  pose proof (length_removelast_le (pointsR st)).
  destruct EL as [-> | ->], ER as [-> | ->];
    repeat split; auto using Forall_removelast; lia.
Qed.

Lemma inv_mouseUp side canvas e w st :
  sessionInv st -> sessionInv (snd (mouseUp side canvas e w st)).
Proof.
  intros Hinv. unfold mouseUp.
  destruct (maxPointsFor (step st)) as [limit |] eqn:Hlimit; [| exact Hinv].
  cbn [snd].
  destruct (snd (CanvasEvents.handleMouseUp (sideProps side limit st) canvas e w))
    as [p |] eqn:Hp; [| exact Hinv].
  destruct (handleMouseUp_some _ _ _ _ _ Hp)
    as (img & rect & Himg & _ & _ & _ & Hlen & _ & B1 & B2 & B3 & B4).
  destruct Hinv as [Hc Hb]. split; [now apply consistent_add |].
  intros limit' Hlimit'.
  assert (limit' = limit) as ->.
  { destruct side; cbn in Hlimit'; congruence. }
  destruct (Hb limit Hlimit) as (BL & BR & FL & FR).
  unfold sideProps in Himg, Hlen. cbn in Himg, Hlen.
  destruct side; cbn in *.
  - destruct (canvasL st) as [c |]; [| discriminate Himg].
    injection Himg as <-. cbn in B2, B4.
    rewrite length_app. cbn.
    repeat split; try lia; try assumption.
    apply Forall_app. split; [assumption |].
    constructor; [| constructor]. cbn. auto.
  - destruct (canvasR st) as [c |]; [| discriminate Himg].
    injection Himg as <-. cbn in B2, B4.
    rewrite length_app. cbn.
    repeat split; try lia; try assumption.
    apply Forall_app. split; [assumption |].
    constructor; [| constructor]. cbn. auto.
Qed.

Lemma inv_start st : sessionInv st -> sessionInv (startProcessing st).
Proof.
  intros Hinv. unfold startProcessing.
  destruct (srcL st), (srcR st); try exact Hinv.
  destruct (assumeEqualFraming (options st)).
  - apply (inv_no_stage st); try reflexivity. apply Hinv.
  - apply inv_of_empty;
      destruct (assumeEqualTilt (options st)), (assumeEqualZoom (options st));
      reflexivity.
Qed.

Lemma inv_rotation st : sessionInv st -> sessionInv (applyRotation st).
Proof.
  intros Hinv.
  destruct (canvasL st) as [cL |] eqn:HcL;
    [| destruct (apply_refused st (or_introl HcL)) as (-> & _); exact Hinv].
  destruct (canvasR st) as [cR |] eqn:HcR;
    [| destruct (apply_refused st (or_intror (or_introl HcR))) as (-> & _);
       exact Hinv].
  destruct (pointsL st) as [| l0 [| l1 ls]] eqn:HpL.
  - destruct (apply_refused st (or_intror (or_intror (or_introl HpL)))) as (-> & _).
    exact Hinv.
  - destruct (apply_refused_one_point st l0 l0 (or_introl HpL)) as (-> & _).
    exact Hinv.
  - destruct (pointsR st) as [| r0 [| r1 rs]] eqn:HpR.
    + destruct (apply_refused st (or_intror (or_intror (or_intror HpR)))) as (-> & _).
      exact Hinv.
    + destruct (apply_refused_one_point st r0 r0 (or_intror HpR)) as (-> & _).
      exact Hinv.
    + destruct (applyRotation_clears st cL cR l0 l1 ls r0 r1 rs HcL HcR HpL HpR)
        as (EL & ER & EH & _).
      now apply inv_of_empty.
Qed.

Lemma inv_scaling st : sessionInv st -> sessionInv (applyScaling st).
Proof.
  intros Hinv. unfold applyScaling.
  destruct (canvasL st) as [cL |]; [| exact Hinv].
  destruct (canvasR st) as [cR |]; [| exact Hinv].
  destruct (pointsL st) as [| l0 [| l1 ls]]; try exact Hinv.
  destruct (pointsR st) as [| r0 [| r1 rs]]; try exact Hinv.
  destruct (JsMath.eq (JsMath.abs (y l0 - y l1)) 0
            || JsMath.eq (JsMath.abs (y r0 - y r1)) 0).
  - now apply (inv_same st).
  - now apply inv_of_empty.
Qed.

Lemma inv_cropping st : sessionInv st -> sessionInv (applyCropping st).
Proof.
  intros Hinv.
  destruct (applyCropping_collector st) as (EL & ER & EH).
  destruct (canvasL st) as [cL |] eqn:HcL;
    [| destruct (apply_refused st (or_introl HcL)) as (_ & _ & ->); exact Hinv].
  destruct (canvasR st) as [cR |] eqn:HcR;
    [| destruct (apply_refused st (or_intror (or_introl HcR))) as (_ & _ & ->);
       exact Hinv].
  destruct (pointsL st) as [| l0 ls] eqn:HpL;
    [destruct (apply_refused st (or_intror (or_intror (or_introl HpL))))
       as (_ & _ & ->); exact Hinv |].
  destruct (pointsR st) as [| r0 rs] eqn:HpR;
    [destruct (apply_refused st (or_intror (or_intror (or_intror HpR))))
       as (_ & _ & ->); exact Hinv |].
  apply (inv_no_stage st); try congruence; [apply Hinv |].
  rewrite (applyCropping_applied st cL cR l0 ls r0 rs) by assumption.
  reflexivity.
Qed.

Lemma inv_handle st ev : sessionInv st -> sessionInv (handle st ev).
Proof.
  intros Hinv. destruct ev; cbn [handle].
  - now apply inv_mouseUp.
  - now apply inv_undo.
  - now apply (inv_same st).
  - now apply inv_start.
  - now apply inv_rotation.
  - now apply inv_scaling.
  - now apply inv_cropping.
  - now apply inv_of_empty.
Qed.

Lemma inv_run evs : forall st, sessionInv st -> sessionInv (run evs st).
Proof.
  induction evs as [| ev evs IH]; intros st Hinv; [exact Hinv |].
  apply IH. now apply inv_handle.
Qed.

(** X19: through a whole session of mouse-ups on the two canvases, undos,
    option changes, starts, applies and resets, begun with an empty
    collector, the history is as long as the two point sets together, and
    in every step that shows canvases neither side has more points than
    the step allows (two in ROTATE and SCALE, one in CROP) and every point
    lies on the working canvas of its side, edges included. *)
Theorem session_points_bounded (st0 : State) (evs : list Event) :
  pointsL st0 = [] -> pointsR st0 = [] -> pointHistory st0 = [] ->
  let st := run evs st0 in
  length (pointHistory st) = (length (pointsL st) + length (pointsR st))%nat /\
  (forall limit, maxPointsFor (step st) = Some limit ->
     (length (pointsL st) <= limit)%nat /\
     (length (pointsR st) <= limit)%nat /\
     Forall (insideCanvas (store st) (canvasL st)) (pointsL st) /\
     Forall (insideCanvas (store st) (canvasR st)) (pointsR st)).
Proof.
  intros HL HR HH st.
  destruct (inv_run evs st0 (inv_of_empty st0 HL HR HH)) as [Hc Hb].
  split; [now apply consistent_length | exact Hb].
Qed.

(** X20: in a session, a crop apply in the CROP step finds one anchor on
    each side, both on their working canvases, and so never reads outside
    a source: the rectangle cut from each working canvas lies within it
    and the common size is not negative. *)
Theorem session_crop_inside
    (st0 : State) (evs : list Event) (cL cR : CanvasRef)
    (l0 r0 : Point) (ls rs : list Point) :
  sessionInv st0 ->
  let st := run evs st0 in
  step st = CROP ->
  canvasL st = Some cL -> canvasR st = Some cR ->
  pointsL st = l0 :: ls -> pointsR st = r0 :: rs ->
  ls = [] /\ rs = [] /\
  exists (outL outR : Canvas) (fw fh sxL syL sxR syR : Z),
    ImageService.cropImagesAligned cL cR l0 r0 (assumeEqualZoom (options st))
      (store st)
      = ((length (store st), S (length (store st))), store st ++ [outL; outR]) /\
    width outL = fw /\ height outL = fh /\ width outR = fw /\ height outR = fh /\
    commands outL =
      [DrawImageCropped cL (inject_Z sxL) (inject_Z syL)
         (inject_Z fw) (inject_Z fh) 0 0 (inject_Z fw) (inject_Z fh)] /\
    commands outR =
      [DrawImageCropped cR (inject_Z sxR) (inject_Z syR)
         (inject_Z fw) (inject_Z fh) 0 0 (inject_Z fw) (inject_Z fh)] /\
    0 <= fw /\ 0 <= fh /\
    0 <= sxL /\ sxL + fw <= widthOf (store st) cL /\
    0 <= syL /\ syL + fh <= heightOf (store st) cL /\
    0 <= sxR /\ sxR + fw <= widthOf (store st) cR /\
    0 <= syR /\ syR + fh <= heightOf (store st) cR.
Proof.
  intros Hinv st Hstep HcL HcR HpL HpR.
  destruct (inv_run evs st0 Hinv) as [_ Hb]. fold st in Hb.
  destruct (Hb 1%nat) as (BL & BR & FL & FR); [now rewrite Hstep |].
  rewrite HpL in BL, FL. rewrite HpR in BR, FR.
  rewrite HcL in FL. rewrite HcR in FR.
  apply Forall_cons_1 in FL as [IL _]. apply Forall_cons_1 in FR as [IR _].
  split; [destruct ls; [reflexivity | cbn in BL; lia] |].
  split; [destruct rs; [reflexivity | cbn in BR; lia] |].
  now apply crop_stays_inside.
Qed.

Lemma session_crop_inside_witness :
  let st0 := withPoints [pt 40 50] [pt 50 50]
               (setStep CROP (loaded (options initial))) in
  let st := run [] st0 in
  (sessionInv st0 /\ step st = CROP /\
   canvasL st = Some 0%nat /\ canvasR st = Some 1%nat /\
   pointsL st = [pt 40 50] /\ pointsR st = [pt 50 50]) /\
  exists (outL outR : Canvas) (fw fh : Z),
    ImageService.cropImagesAligned 0%nat 1%nat (pt 40 50) (pt 50 50)
      (assumeEqualZoom (options st)) (store st)
      = ((length (store st), S (length (store st))), store st ++ [outL; outR]) /\
    width outL = fw /\ height outL = fh /\ 0 <= fw /\ 0 <= fh.
Proof.
  intros st0 st.
  assert (Hinv : sessionInv st0).
  { split; [split; reflexivity |].
    intros limit Hlimit. injection Hlimit as <-.
    split; [apply Nat.le_refl |]. split; [apply Nat.le_refl |].
    split; (constructor; [| constructor]);
      (split; [discriminate |]); (split; [discriminate |]);
      (split; discriminate). }
  split.
  { split; [exact Hinv |]. split; [reflexivity |]. split; [reflexivity |].
    split; [reflexivity |]. split; reflexivity. }
  destruct (session_crop_inside st0 [] 0%nat 1%nat (pt 40 50) (pt 50 50) [] []
              Hinv eq_refl eq_refl eq_refl eq_refl eq_refl)
    as (_ & _ & outL & outR & fw & fh & sxL & syL & sxR & syR &
        Hrun & Hw & Hh & _ & _ & _ & _ & H1 & H2 & _).
  exists outL, outR, fw, fh.
  exact (conj Hrun (conj Hw (conj Hh (conj H1 H2)))).
Defined.

Lemma session_points_bounded_witness :
  let st0 := setStep CROP (loaded (options initial)) in
  let click := {| CanvasEvents.clientX := 50; CanvasEvents.clientY := 60 |} in
  let w := {| CanvasEvents.view := InteractiveCanvas.initialView;
              CanvasEvents.clickStartRef := {| x := 50; y := 60 |} |} in
  let rect := {| DOMRect.left := 0; DOMRect.top := 0 |} in
  let evs := [MouseUp Left (Some rect) click w; MouseUp Left (Some rect) click w;
              MouseUp Right (Some rect) click w; Undo; ApplyCropping] in
  (pointsL st0 = [] /\ pointsR st0 = [] /\ pointHistory st0 = []) /\
  length (pointHistory (run evs st0))
  = (length (pointsL (run evs st0)) + length (pointsR (run evs st0)))%nat.
Proof.
  intros st0 click w rect evs. split; [repeat split |].
  exact (proj1 (session_points_bounded st0 evs eq_refl eq_refl eq_refl)).
Defined.

End SessionInvariant.


(** ** The crop in double precision *)

Section CropRounded.

Import Dom.
Import Binary64.

Lemma binary64_int (z : Z) : Z.abs z < 2 ^ 53 -> binary64 (inject_Z z).
Proof.
  intros Hz. exists z, 0. split; [exact Hz |]. left.
  split; [lia |]. now rewrite Z.mul_1_r.
Qed.

(** Taking whole pixels off a number below 2^53 does not round. *)
Lemma binary64_minus_int (a : Q) (c : Z) :
  binary64 a -> 0 <= c -> (inject_Z c <= a)%Q -> (a < inject_Z (2 ^ 53))%Q ->
  binary64 (a - inject_Z c).
Proof.
  intros (m & k & Hm & [[Hk Ha] | [Hk Ha]]) Hc Hca Hbig.
  - rewrite Ha in Hca, Hbig. rewrite <- Zle_Qle in Hca. rewrite <- Zlt_Qlt in Hbig.
    exists (m * 2 ^ k - c), 0. split; [lia |]. left. split; [lia |].
    rewrite Ha, Z.mul_1_r. unfold Z.sub.
    rewrite inject_Z_plus, inject_Z_opp. reflexivity.
  - assert (Hp : 0 < 2 ^ k) by (apply Z.pow_pos_nonneg; lia).
    assert (HpQ : (inject_Z 0 < inject_Z (2 ^ k))%Q) by (now rewrite <- Zlt_Qlt).
    change (inject_Z 0) with 0%Q in HpQ.
    exists (m - c * 2 ^ k), k.
    assert (Heq : ((a - inject_Z c) * inject_Z (2 ^ k)
                   == inject_Z (m - c * 2 ^ k))%Q).
    { unfold Z.sub. rewrite inject_Z_plus, inject_Z_opp, inject_Z_mult, <- Ha. ring. }
    assert (Hlo : 0 <= m - c * 2 ^ k).
    { rewrite Zle_Qle, <- Heq. apply Qmult_le_0_compat; Lqa.lra. }
    split; [| right; split; [lia | exact Heq]].
    assert (0 <= c * 2 ^ k) by lia. lia.
Qed.

Section WithRounding.

Variable fl : Q -> Q.
Hypothesis fl_exact : exact fl.
Hypothesis fl_monotone : monotone fl.

Lemma fl_int (z : Z) : Z.abs z < 2 ^ 53 -> (fl (inject_Z z) == inject_Z z)%Q.
Proof. intros Hz. apply fl_exact. now apply binary64_int. Qed.

Lemma fl_nonneg (q : Q) : (0 <= q)%Q -> (0 <= fl q)%Q.
Proof.
  intros Hq. apply fl_monotone in Hq.
  rewrite (fl_int 0) in Hq; [exact Hq | reflexivity].
Qed.

Lemma fl_below_int (q : Q) (z : Z) :
  Z.abs z < 2 ^ 53 -> (q <= inject_Z z)%Q -> (fl q <= inject_Z z)%Q.
Proof.
  intros Hz Hq. apply fl_monotone in Hq. now rewrite (fl_int z Hz) in Hq.
Qed.

(** One axis of the crop: [wL] and [wR] are the sides of the two images,
    [aL] and [aR] the coordinates of the two anchors. *)
Lemma crop_axis_rounded (wL wR : Z) (aL aR : Q) :
  binary64 aL -> binary64 aR ->
  (0 <= aL)%Q -> (aL <= inject_Z wL)%Q -> wL <= maxCanvasSide ->
  (0 <= aR)%Q -> (aR <= inject_Z wR)%Q -> wR <= maxCanvasSide ->
  let cropLeft := Qfloor (Qmin aL aR) in
  let cropRight := Qfloor (Qmin (fl (inject_Z wL - aL)) (fl (inject_Z wR - aR))) in
  Qfloor (fl (aL - inject_Z cropLeft)) = Qfloor aL - cropLeft /\
  Qfloor (fl (aR - inject_Z cropLeft)) = Qfloor aR - cropLeft /\
  0 <= cropLeft /\ 0 <= cropRight /\
  cropLeft <= Qfloor aL /\ cropLeft <= Qfloor aR /\
  Qfloor aL + cropRight <= wL /\ Qfloor aR + cropRight <= wR.
Proof.
  intros BL BR HL0 HL1 HwL HR0 HR1 HwR cropLeft cropRight.
  unfold maxCanvasSide in *.
  assert (H0 : 0 <= cropLeft).
  { change 0 with (Qfloor 0). apply Qfloor_resp_le. now apply Q.min_glb. }
  pose proof (Qfloor_resp_le _ _ (Q.le_min_l aL aR)) as HlL.
  pose proof (Qfloor_resp_le _ _ (Q.le_min_r aL aR)) as HlR.
  fold cropLeft in HlL, HlR.
  pose proof (Qfloor_le aL) as FL. pose proof (Qfloor_le aR) as FR.
  assert (HwL' : 0 <= wL) by (rewrite Zle_Qle; change (inject_Z 0) with 0%Q; Lqa.lra).
  assert (HwR' : 0 <= wR) by (rewrite Zle_Qle; change (inject_Z 0) with 0%Q; Lqa.lra).
  assert (HfL : 0 <= Qfloor aL <= wL).
  { split; [change 0 with (Qfloor 0); now apply Qfloor_resp_le |].
    rewrite <- (Qfloor_Z wL). now apply Qfloor_resp_le. }
  assert (HfR : 0 <= Qfloor aR <= wR).
  { split; [change 0 with (Qfloor 0); now apply Qfloor_resp_le |].
    rewrite <- (Qfloor_Z wR). now apply Qfloor_resp_le. }
  assert (Hsrc : forall (a : Q) (w : Z),
            binary64 a -> (a <= inject_Z w)%Q -> w <= 2147483647 ->
            cropLeft <= Qfloor a ->
            Qfloor (fl (a - inject_Z cropLeft)) = Qfloor a - cropLeft).
  { intros a w Ba Haw Hw Hc.
    rewrite <- Qfloor_minus_Z. apply Qfloor_comp. apply fl_exact.
    apply binary64_minus_int; [exact Ba | exact H0 | |].
    - apply Qle_trans with (inject_Z (Qfloor a)); [now rewrite <- Zle_Qle |].
      apply Qfloor_le.
    - apply Qle_lt_trans with (inject_Z w); [exact Haw |].
      rewrite <- Zlt_Qlt. lia. }
  assert (Hright : forall (a : Q) (w : Z),
            (0 <= a)%Q -> (a <= inject_Z w)%Q -> 0 <= w <= 2147483647 ->
            (0 <= fl (inject_Z w - a))%Q /\
            Qfloor (fl (inject_Z w - a)) <= w - Qfloor a).
  { intros a w Ha0 Haw Hw. split; [apply fl_nonneg; Lqa.lra |].
    rewrite <- (Qfloor_Z (w - Qfloor a)). apply Qfloor_resp_le.
    apply fl_below_int.
    - assert (0 <= Qfloor a <= w).
      { split; [change 0 with (Qfloor 0); now apply Qfloor_resp_le |].
        rewrite <- (Qfloor_Z w). now apply Qfloor_resp_le. }
      lia.
    - unfold Z.sub. rewrite inject_Z_plus, inject_Z_opp.
      pose proof (Qfloor_le a). Lqa.lra. }
  destruct (Hright aL wL HL0 HL1 ltac:(lia)) as [PL UL].
  destruct (Hright aR wR HR0 HR1 ltac:(lia)) as [PR UR].
  pose proof (Qfloor_resp_le _ _
                (Q.le_min_l (fl (inject_Z wL - aL)) (fl (inject_Z wR - aR)))) as HrL.
  pose proof (Qfloor_resp_le _ _
                (Q.le_min_r (fl (inject_Z wL - aL)) (fl (inject_Z wR - aR)))) as HrR.
  fold cropRight in HrL, HrR.
  assert (H1 : 0 <= cropRight).
  { change 0 with (Qfloor 0). apply Qfloor_resp_le. now apply Q.min_glb. }
  split; [apply (Hsrc aL wL); assumption |].
  split; [apply (Hsrc aR wR); assumption |].
  repeat split; lia.
Qed.

Lemma cropImagesAligned_rounded_run left right pL pR equalZoom (s : Store) :
  let cropLeft := Qfloor (Qmin (x pL) (x pR)) in
  let cropRight := Qfloor (Qmin (fl (inject_Z (widthOf s left) - x pL))
                                (fl (inject_Z (widthOf s right) - x pR))) in
  let cropTop := Qfloor (Qmin (y pL) (y pR)) in
  let cropBottom := Qfloor (Qmin (fl (inject_Z (heightOf s left) - y pL))
                                 (fl (inject_Z (heightOf s right) - y pR))) in
  let finalWidth := cropLeft + cropRight in
  let finalHeight := cropTop + cropBottom in
  let cut source anchor :=
    {| width := finalWidth; height := finalHeight;
       commands :=
         [DrawImageCropped source
            (inject_Z (Qfloor (fl (x anchor - inject_Z cropLeft))))
            (inject_Z (Qfloor (fl (y anchor - inject_Z cropTop))))
            (inject_Z finalWidth) (inject_Z finalHeight) 0 0
            (inject_Z finalWidth) (inject_Z finalHeight)] |} in
  Binary64.cropImagesAligned fl left right pL pR equalZoom s =
  ((length s, S (length s)), s ++ [cut left pL; cut right pR]).
Proof.
  intros.
  unfold Binary64.cropImagesAligned, bind, getWidth, getHeight,
    createCanvas, setWidth, setHeight, draw, ret.
  rewrite !alter_fresh.
  rewrite length_app, Nat.add_1_r, <- app_assoc.
  reflexivity.
Qed.

End WithRounding.




End CropRounded.

(** ** The scale stage, with the rounding of the code *)

Section ScaleRounded.

Import Dom App.
Import Binary64.

Lemma binary64_Qeq (a b : Q) : (a == b)%Q -> binary64 a -> binary64 b.
Proof.
  intros Hab (m & k & Hm & [[Hk Ha] | [Hk Ha]]); exists m, k; (split; [exact Hm |]).
  - left. split; [exact Hk |]. now rewrite <- Hab.
  - right. split; [exact Hk |]. now rewrite <- Hab.
Qed.

Lemma scaleImage_rounded_run (fl : Q -> Q) source ratio (s : Store) :
  Binary64.scaleImage fl source ratio s =
  (length s,
   s ++ [if JsMath.lt (JsMath.abs (fl (ratio - 1)%Q)) (fl 0.001%Q) then
           {| width := JsMath.floor (inject_Z (widthOf s source));
              height := JsMath.floor (inject_Z (heightOf s source));
              commands := [DrawImage source 0 0] |}
         else
           let newWidth := JsMath.ceil (fl (inject_Z (widthOf s source) * ratio)%Q) in
           let newHeight := JsMath.ceil (fl (inject_Z (heightOf s source) * ratio)%Q) in
           {| width := newWidth; height := newHeight;
              commands := [DrawImageScaled source 0 0
                             (inject_Z newWidth) (inject_Z newHeight)] |}]).
Proof.
  unfold Binary64.scaleImage, sub, mul.
  destruct (JsMath.lt (JsMath.abs (fl (ratio - 1)%Q)) (fl 0.001%Q));
    unfold bind, getWidth, getHeight.
  - apply cloneCanvas_run.
  - unfold createCanvas, setWidth, setHeight, draw, ret.
    now rewrite !alter_fresh.
Qed.

Lemma distance_nonzero (q : Q) : ~ (Qabs q == 0)%Q -> JsMath.eq (JsMath.abs q) 0 = false.
Proof.
  intros H. apply not_true_is_false. unfold JsMath.eq, JsMath.abs.
  now rewrite Qeq_bool_iff.
Qed.

(** The state after a scale apply that goes through. *)
Lemma applyScaling_rounded_applied (fl : Q -> Q) st cL cR l0 l1 ls r0 r1 rs :
  canvasL st = Some cL -> canvasR st = Some cR ->
  pointsL st = l0 :: l1 :: ls -> pointsR st = r0 :: r1 :: rs ->
  let hL := Qabs (fl (y l0 - y l1)%Q) in
  let hR := Qabs (fl (y r0 - y r1)%Q) in
  ~ (hL == 0)%Q -> ~ (hR == 0)%Q ->
  let res := Binary64.scaleImage fl cR (fl (hL / hR)%Q) (store st) in
  Binary64.applyScaling fl st =
  setStep CROP (clearPoints (setCanvasR (Some (fst res))
    (setCanvasL (Some cL) (setStore (snd res) st)))).
Proof.
  intros HcL HcR HpL HpR hL hR HnL HnR res.
  unfold Binary64.applyScaling, sub, div. rewrite HcL, HcR, HpL, HpR.
  rewrite (distance_nonzero _ HnL), (distance_nonzero _ HnR).
  reflexivity.
Qed.

(** C5, as the code has it: with two points on each side and both
    computed vertical distances nonzero, the ratio is the left distance
    over the right one, each difference and the quotient rounded to
    double precision; the left canvas stays the very same canvas, the
    right one is replaced by a new canvas, of ceil (w * ratio) by
    ceil (h * ratio), the products rounded, when the rounded |ratio - 1|
    is at least the double 0.001 and these sides are within what a canvas
    keeps, and of w by h, a copy, when it is below; the collector is
    emptied and the stage is CROP.  The distances 10 and 20 give the
    ratio one half. *)
Theorem applyScaling_scales_right
    (fl : Q -> Q) (st : State) (cL cR : CanvasRef) (clv crv : Canvas)
    (l0 l1 r0 r1 : Point) (ls rs : list Point) :
  exact fl -> monotone fl ->
  canvasL st = Some cL -> canvasR st = Some cR ->
  store st !! cL = Some clv -> store st !! cR = Some crv ->
  0 < width crv <= maxCanvasSide -> 0 < height crv <= maxCanvasSide ->
  pointsL st = l0 :: l1 :: ls -> pointsR st = r0 :: r1 :: rs ->
  let hL := Qabs (fl (y l0 - y l1)%Q) in
  let hR := Qabs (fl (y r0 - y r1)%Q) in
  ~ (hL == 0)%Q -> ~ (hR == 0)%Q ->
  let ratio := fl (hL / hR)%Q in
  let newWidth := Qceiling (fl (inject_Z (width crv) * ratio)%Q) in
  let newHeight := Qceiling (fl (inject_Z (height crv) * ratio)%Q) in
  let st' := Binary64.applyScaling fl st in
  exists (nR : CanvasRef) (out : Canvas),
    Binary64.scaleImage fl cR ratio (store st) = (nR, store st') /\
    canvasR st' = Some nR /\ nR <> cR /\ store st' !! nR = Some out /\
    canvasL st' = Some cL /\
    store st' !! cL = Some clv /\ store st' !! cR = Some crv /\
    ((fl 0.001 <= Qabs (fl (ratio - 1)))%Q ->
     newWidth <= maxCanvasSide -> newHeight <= maxCanvasSide ->
       width out = newWidth /\ height out = newHeight /\
       0 <= newWidth /\ 0 <= newHeight) /\
    ((Qabs (fl (ratio - 1)) < fl 0.001)%Q ->
       width out = width crv /\ height out = height crv) /\
    pointsL st' = [] /\ pointsR st' = [] /\ pointHistory st' = [] /\
    step st' = CROP /\
    (fl (Qabs (fl (y (pt 0 0) - y (pt 0 10))) / Qabs (fl (y (pt 0 0) - y (pt 0 20))))
     == 0.5)%Q.
Proof.
  intros Hexact Hmono HcL HcR Hclv Hcrv [Hw0 _] [Hh0 _] HpL HpR hL hR HnL HnR
    ratio newWidth newHeight st'. subst st'.
  rewrite (applyScaling_rounded_applied fl st cL cR l0 l1 ls r0 r1 rs) by assumption.
  fold hL hR ratio. rewrite (scaleImage_rounded_run fl cR ratio (store st)).
  cbn [fst snd step canvasL canvasR store pointsL pointsR pointHistory
       setStep clearPoints setCanvasL setCanvasR setStore
       setPointsL setPointsR setPointHistory].
  pose proof (lookup_valid _ _ _ Hclv) as VL.
  pose proof (lookup_valid _ _ _ Hcrv) as VR.
  assert (Hratio : (0 <= ratio)%Q).
  { apply (fl_nonneg fl Hexact Hmono). unfold Qdiv.
    apply Qmult_le_0_compat; [apply Qabs_nonneg |].
    apply Qinv_le_0_compat, Qabs_nonneg. }
  eexists _, _. split; [reflexivity |].
  split; [reflexivity |].
  split; [lia |].
  split; [apply lookup_fresh |].
  split; [reflexivity |].
  split; [now rewrite lookup_kept |].
  split; [now rewrite lookup_kept |].
  rewrite (widthOf_lookup _ _ _ Hcrv), (heightOf_lookup _ _ _ Hcrv).
  unfold JsMath.lt, JsMath.abs, JsMath.ceil, JsMath.floor.
  split.
  { intros Hfar _ _. apply Qle_bool_iff in Hfar. rewrite Hfar.
    cbn [negb width height]. fold newWidth newHeight.
    split; [reflexivity |]. split; [reflexivity |].
    assert (Hceil : forall q : Q, (0 <= q)%Q -> 0 <= Qceiling q).
    { intros q Hq. change 0 with (Qceiling 0). now apply Qceiling_resp_le. }
    split; apply Hceil, (fl_nonneg fl Hexact Hmono), Qmult_le_0_compat;
      try exact Hratio; rewrite <- (Zle_Qle 0); lia. }
  split.
  { intros Hnear.
    destruct (Qle_bool (fl 0.001%Q) (Qabs (fl (ratio - 1)%Q))) eqn:Hb.
    - apply Qle_bool_iff in Hb. Lqa.lra.
    - cbn [negb width height]. now rewrite !Qfloor_Z. }
  split; [reflexivity |]. split; [reflexivity |]. split; [reflexivity |].
  split; [reflexivity |].
  assert (H10 : (fl (y (pt 0 0) - y (pt 0 10)) == - (10))%Q).
  { apply Hexact. exists (-10), 0. split; [reflexivity |]. left.
    split; [lia | reflexivity]. }
  assert (H20 : (fl (y (pt 0 0) - y (pt 0 20)) == - (20))%Q).
  { apply Hexact. exists (-20), 0. split; [reflexivity |]. left.
    split; [lia | reflexivity]. }
  assert (Hq : (Qabs (fl (y (pt 0 0) - y (pt 0 10)))
                / Qabs (fl (y (pt 0 0) - y (pt 0 20))) == 0.5)%Q).
  { rewrite H10, H20. reflexivity. }
  rewrite (Hexact _); [exact Hq |].
  apply (binary64_Qeq 0.5); [now symmetry |].
  exists 1, 1. split; [reflexivity |]. right. split; [lia | reflexivity].
Qed.

Lemma applyScaling_scales_right_witness :
  let fl := fun q : Q => q in
  let st := withPoints [pt 0 0; pt 0 10] [pt 0 0; pt 0 20]
              (setStep SCALE (loaded (options initial))) in
  (exact fl /\ monotone fl /\
   canvasL st = Some 0%nat /\ canvasR st = Some 1%nat /\
   store st !! 0%nat = Some (photo 100 100) /\
   store st !! 1%nat = Some (photo 120 100) /\
   pointsL st = [pt 0 0; pt 0 10] /\ pointsR st = [pt 0 0; pt 0 20]) /\
  exists (nR : CanvasRef) (out : Canvas),
    canvasR (Binary64.applyScaling fl st) = Some nR /\
    store (Binary64.applyScaling fl st) !! nR = Some out /\
    canvasL (Binary64.applyScaling fl st) = Some 0%nat /\
    width out = 60 /\ height out = 50 /\
    step (Binary64.applyScaling fl st) = CROP.
Proof.
  intros fl st.
  assert (Hexact : exact fl) by (intros q _; reflexivity).
  assert (Hmono : monotone fl) by (intros a b H; exact H).
  split; [repeat split; assumption |].
  destruct (applyScaling_scales_right fl st 0%nat 1%nat (photo 100 100) (photo 120 100)
              (pt 0 0) (pt 0 10) (pt 0 0) (pt 0 20) [] []
              Hexact Hmono eq_refl eq_refl eq_refl eq_refl
              ltac:(split; [reflexivity | discriminate])
              ltac:(split; [reflexivity | discriminate])
              eq_refl eq_refl
              ltac:(intros H; discriminate H) ltac:(intros H; discriminate H))
    as (nR & out & _ & HR & _ & Hout & HL & _ & _ & Hfar & _ & _ & _ & _ & Hstep & _).
  exists nR, out.
  destruct Hfar as (Hw & Hh & _);
    [intros H; discriminate H | discriminate | discriminate |].
  exact (conj HR (conj Hout (conj HL (conj Hw (conj Hh Hstep))))).
Defined.

End ScaleRounded.

(** ** The angle of the reversed line, with the rounding of the code *)

Section AngleRounded.

Local Open Scope R_scope.

Lemma atan_nonpos t : t <= 0 -> atan t <= 0.
Proof.
  intros [Ht | ->].
  - left. rewrite <- atan_0. now apply atan_increasing.
  - rewrite atan_0. lra.
Qed.

Lemma atan_pos t : 0 < t -> 0 < atan t.
Proof. intros Ht. rewrite <- atan_0. now apply atan_increasing. Qed.

Lemma quotient_neg_args a b : b <> 0 -> - a / - b = a / b.
Proof. intros Hb. field. exact Hb. Qed.

(** The result of [atan2] lies in the half-open interval it is said to. *)
Lemma atan2_range b a : - PI < JsMath.atan2 b a <= PI.
Proof.
  pose proof PI_RGT_0 as Hpi.
  unfold JsMath.atan2.
  destruct (Rlt_dec 0 a) as [Ha | Ha].
  - pose proof (atan_bound (b / a)). lra.
  - destruct (Rlt_dec a 0) as [Ha' | Ha'].
    + destruct (Rle_dec 0 b) as [Hb | Hb].
      * pose proof (atan_bound (b / a)).
        assert (atan (b / a) <= 0).
        { apply atan_nonpos. rewrite <- quotient_neg_args by lra.
          assert (0 <= b / - a).
          { unfold Rdiv. apply Rmult_le_pos; [exact Hb |].
            left. apply Rinv_0_lt_compat. lra. }
          unfold Rdiv in *. rewrite Ropp_mult_distr_l_reverse. lra. }
        lra.
      * pose proof (atan_bound (b / a)).
        assert (0 < atan (b / a)).
        { apply atan_pos. rewrite <- quotient_neg_args by lra.
          apply Rdiv_lt_0_compat; lra. }
        lra.
    + destruct (Rlt_dec 0 b); [lra |].
      destruct (Rlt_dec b 0); lra.
Qed.

(** Turning the vector round moves its angle by half a turn, up or down. *)
Lemma atan2_reverse b a :
  ~ (a = 0 /\ b = 0) ->
  JsMath.atan2 b a = JsMath.atan2 (- b) (- a) + PI \/
  JsMath.atan2 b a = JsMath.atan2 (- b) (- a) - PI.
Proof.
  intros Hne. unfold JsMath.atan2.
  destruct (Rlt_dec 0 a) as [Ha | Ha].
  - destruct (Rlt_dec 0 (- a)); [lra |].
    destruct (Rlt_dec (- a) 0); [| lra].
    rewrite quotient_neg_args by lra.
    destruct (Rle_dec 0 (- b)); [right | left]; lra.
  - destruct (Rlt_dec a 0) as [Ha' | Ha'].
    + destruct (Rlt_dec 0 (- a)); [| lra].
      rewrite quotient_neg_args by lra.
      destruct (Rle_dec 0 b); [left | right]; lra.
    + assert (a = 0) by lra. subst a.
      destruct (Rlt_dec 0 (- 0)); [lra |].
      destruct (Rlt_dec (- 0) 0); [lra |].
      destruct (Rlt_dec 0 b) as [Hb | Hb].
      * destruct (Rlt_dec 0 (- b)); [lra |].
        destruct (Rlt_dec (- b) 0); [left | ]; lra.
      * destruct (Rlt_dec b 0) as [Hb' | Hb'].
        -- destruct (Rlt_dec 0 (- b)); [right |]; lra.
        -- exfalso. apply Hne. split; lra.
Qed.

Lemma Rabs_le_inv (a b : R) : Rabs a <= b -> - b <= a <= b.
Proof. unfold Rabs. destruct (Rcase_abs a); lra. Qed.

Lemma bounded_product a c : Rabs a <= 5 -> Rabs c <= 61 -> Rabs (a * c) <= 512.
Proof.
  intros Ha Hc. rewrite Rabs_mult.
  apply Rle_trans with (5 * 61); [| lra].
  apply Rmult_le_compat; try apply Rabs_pos; assumption.
Qed.

(** The error of a computed angle in degrees: [a] is the computed angle
    in radians, [theta] the angle itself, [c] the computed factor. *)
Lemma rounded_degrees (rnd : R -> R) (u eta eps kappa a theta c : R) :
  (forall r, Rabs r <= 512 -> Rabs (rnd r - r) <= u * Rabs r + eta) ->
  0 <= u -> 0 <= eps <= 1 -> 0 <= kappa <= 1 ->
  Rabs (a - theta) <= eps -> Rabs theta <= PI ->
  Rabs (c - 180 / PI) <= kappa ->
  Rabs (rnd (a * c) - theta * (180 / PI)) <= 512 * u + eta + 4 * kappa + 61 * eps.
Proof.
  intros Hrnd Hu [He0 He1] [Hk0 Hk1] Ha Ht Hc.
  pose proof PI2_3_2 as Hpi3. pose proof PI_4 as Hpi4.
  set (C := 180 / PI) in *.
  assert (HC : PI * C = 180) by (unfold C; field; lra).
  assert (HC60 : 45 <= C <= 60) by nra.
  apply Rabs_le_inv in Ha, Ht, Hc.
  assert (Ha5 : Rabs a <= 5) by (apply Rabs_le; lra).
  assert (Hc61 : Rabs c <= 61) by (apply Rabs_le; lra).
  pose proof (bounded_product a c Ha5 Hc61) as Hac.
  pose proof (Hrnd (a * c) Hac) as Hr.
  assert (Hur : u * Rabs (a * c) <= 512 * u) by nra.
  apply Rabs_le_inv in Hr.
  assert (H1 : Rabs ((a - theta) * c) <= 61 * eps).
  { rewrite Rabs_mult. rewrite (Rmult_comm 61).
    apply Rmult_le_compat; try apply Rabs_pos; [apply Rabs_le; lra | exact Hc61]. }
  assert (H2 : Rabs (theta * (c - C)) <= 4 * kappa).
  { rewrite Rabs_mult.
    apply Rmult_le_compat; try apply Rabs_pos; apply Rabs_le; lra. }
  apply Rabs_le_inv in H1, H2.
  apply Rabs_le. split; nra.
Qed.

(** C8, as the code has it: the differences, the product and the factor
    180 / pi are rounded and the arctangent is the platform's.  When the
    rounding is symmetric and within u |r| + eta of r, the platform's
    arctangent within eps of the arctangent and the factor within kappa
    of 180 / PI, then for two points whose computed differences are not
    both zero the angle is between -180 and 180 up to
    delta = 512 u + eta + 4 kappa + 61 eps, and the angle of the
    reversed line differs from it by 180 degrees modulo 360 up to
    2 delta; for two points with the same coordinates, the platform's
    arctangent of (0, 0) being 0, both angles are 0. *)
Theorem calculateAngle_reversed_rounded
    (rnd : R -> R) (atan2 : R -> R -> R) (pi u eta eps kappa : R) (p1 p2 : Point) :
  (forall r, rnd (- r) = - rnd r) ->
  (forall r, Rabs r <= 512 -> Rabs (rnd r - r) <= u * Rabs r + eta) ->
  (forall b a, Rabs (atan2 b a - JsMath.atan2 b a) <= eps) ->
  atan2 0 0 = 0 ->
  Rabs (rnd (180 / pi) - 180 / PI) <= kappa ->
  0 <= u -> 0 <= eps <= 1 -> 0 <= kappa <= 1 ->
  let angle := Binary64.calculateAngle rnd atan2 pi in
  let delta := 512 * u + eta + 4 * kappa + 61 * eps in
  (~ (rnd (Q2R (x p2) - Q2R (x p1)) = 0 /\ rnd (Q2R (y p2) - Q2R (y p1)) = 0) ->
   Rabs (angle p1 p2) <= 180 + delta /\
   Rabs (angle p2 p1) <= 180 + delta /\
   exists k : Z,
     (k = 0 \/ k = -1)%Z /\
     Rabs (angle p1 p2 - (angle p2 p1 + 180 + 360 * IZR k)) <= 2 * delta) /\
  ((x p1 == x p2)%Q -> (y p1 == y p2)%Q ->
   angle p1 p2 = 0 /\ angle p2 p1 = 0).
Proof.
  intros Hodd Hrnd Hatan Hnull Hc Hu He Hk angle delta.
  subst angle. unfold Binary64.calculateAngle. split.
  - intros Hne.
    set (dy := rnd (Q2R (y p2) - Q2R (y p1))) in *.
    set (dx := rnd (Q2R (x p2) - Q2R (x p1))) in *.
    assert (Hdy : rnd (Q2R (y p1) - Q2R (y p2)) = - dy).
    { unfold dy. rewrite <- Hodd. f_equal. lra. }
    assert (Hdx : rnd (Q2R (x p1) - Q2R (x p2)) = - dx).
    { unfold dx. rewrite <- Hodd. f_equal. lra. }
    rewrite Hdy, Hdx.
    set (c := rnd (180 / pi)) in *.
    assert (Hrange : forall b a, Rabs (JsMath.atan2 b a) <= PI).
    { intros b a. apply Rabs_le. destruct (atan2_range b a). lra. }
    pose proof (rounded_degrees rnd u eta eps kappa (atan2 dy dx) (JsMath.atan2 dy dx) c
                  Hrnd Hu He Hk (Hatan dy dx) (Hrange dy dx) Hc) as E1.
    pose proof (rounded_degrees rnd u eta eps kappa (atan2 (- dy) (- dx))
                  (JsMath.atan2 (- dy) (- dx)) c
                  Hrnd Hu He Hk (Hatan (- dy) (- dx)) (Hrange (- dy) (- dx)) Hc) as E2.
    fold delta in E1, E2.
    set (a1 := rnd (atan2 dy dx * c)) in *.
    set (a2 := rnd (atan2 (- dy) (- dx) * c)) in *.
    pose proof PI2_3_2 as Hpi3.
    set (C := 180 / PI) in *.
    assert (HC : PI * C = 180) by (unfold C; field; lra).
    assert (HC0 : 0 <= C) by nra.
    pose proof (Hrange dy dx) as R1. pose proof (Hrange (- dy) (- dx)) as R2.
    apply Rabs_le_inv in E1, E2, R1, R2.
    split; [apply Rabs_le; split; nra |].
    split; [apply Rabs_le; split; nra |].
    destruct (atan2_reverse dy dx Hne) as [E | E].
    + exists 0%Z. split; [now left |]. rewrite E in E1.
      apply Rabs_le. split; nra.
    + exists (-1)%Z. split; [now right |]. rewrite E in E1.
      apply Rabs_le. split; nra.
  - intros Hx Hy.
    assert (H0 : rnd 0 = 0).
    { pose proof (Hodd 0) as H. rewrite Ropp_0 in H. lra. }
    apply Qeq_eqR in Hx, Hy. rewrite Hx, Hy.
    unfold Rminus. rewrite !Rplus_opp_r, H0, Hnull, Rmult_0_l, H0. split; reflexivity.
Qed.

Lemma calculateAngle_reversed_rounded_witness :
  let rnd := fun r : R => r in
  let angle := Binary64.calculateAngle rnd JsMath.atan2 PI in
  ~ (rnd (Q2R (x (pt 1 0)) - Q2R (x (pt 0 0))) = 0 /\
     rnd (Q2R (y (pt 1 0)) - Q2R (y (pt 0 0))) = 0) /\
  exists k : Z,
    (k = 0 \/ k = -1)%Z /\
    Rabs (angle (pt 0 0) (pt 1 0) - (angle (pt 1 0) (pt 0 0) + 180 + 360 * IZR k))
    <= 2 * (512 * 0 + 0 + 4 * 0 + 61 * 0).
Proof.
  intros rnd angle.
  assert (Hne : ~ (rnd (Q2R (x (pt 1 0)) - Q2R (x (pt 0 0))) = 0 /\
                   rnd (Q2R (y (pt 1 0)) - Q2R (y (pt 0 0))) = 0)).
  { intros [Hx _]. unfold rnd in Hx. cbn [x pt] in Hx.
    rewrite RMicromega.Q2R_1, RMicromega.Q2R_0 in Hx. lra. }
  assert (Hzero : forall r : R, Rabs (r - r) <= 0).
  { intros r. unfold Rminus. rewrite Rplus_opp_r, Rabs_R0. lra. }
  split; [exact Hne |].
  destruct (calculateAngle_reversed_rounded rnd JsMath.atan2 PI 0 0 0 0
              (pt 0 0) (pt 1 0)) as [Hrev _].
  - intros r. reflexivity.
  - intros r _. rewrite Rmult_0_l, Rplus_0_r. apply Hzero.
  - intros b a. apply Hzero.
  - apply atan2_null.
  - apply Hzero.
  - lra.
  - lra.
  - lra.
  - destruct (Hrev Hne) as (_ & _ & Hk). exact Hk.
Defined.

(** C8 as stated fails for coincident points: both angles are 0, and 0
    is not 180 modulo 360. *)
Lemma calculateAngle_reversed_fails_coincident :
  ~ exists k : Z,
      ImageService.calculateAngle (pt 0 0) (pt 0 0) =
      ImageService.calculateAngle (pt 0 0) (pt 0 0) + 180 + 360 * IZR k.
Proof.
  intros [k Hk].
  assert (H0 : ImageService.calculateAngle (pt 0 0) (pt 0 0) = 0).
  { unfold ImageService.calculateAngle. cbn [x y pt].
    replace (Q2R (0 - 0)) with 0 by (rewrite Q2R_minus; lra).
    rewrite atan2_null. lra. }
  rewrite H0 in Hk.
  assert (Hz : IZR (2 * k + 1) = 0).
  { rewrite plus_IZR, mult_IZR. lra. }
  apply eq_IZR in Hz. lia.
Qed.

End AngleRounded.

(** ** Double precision at work

    The rounded functions at the rounding to nearest, next to the exact
    ones, where the two part. *)

Section RoundToNearest.

Import Dom App.
Import Binary64.

Lemma round64_values :
  (round64 (11 # 10) == 2476979795053773 # 2251799813685248)%Q /\
  (round64 0.001 == 1152921504606847 # 1152921504606846976)%Q /\
  (round64 (100 - (1 # 2 ^ 60)) == 100)%Q /\
  (round64 (- (3)) == - (3))%Q /\ (round64 40.5 == 40.5)%Q.
Proof. vm_compute. repeat split. Qed.

(** The heights 11 and 10 on the 120 by 100 image: the computed ratio is
    just above 1.1 and the new canvas is 132 by 111, where exact
    arithmetic gives 132 by 110. *)
Lemma scale_heights_11_10 :
  let st := withPoints [pt 0 0; pt 0 11] [pt 0 0; pt 0 10]
              (setStep SCALE (loaded (options initial))) in
  store (Binary64.applyScaling round64 st) !! 2%nat
    = Some {| width := 132; height := 111;
              commands := [DrawImageScaled 1%nat 0 0 132 111] |} /\
  store (App.applyScaling st) !! 2%nat
    = Some {| width := 132; height := 110;
              commands := [DrawImageScaled 1%nat 0 0 132 110] |}.
Proof. vm_compute. split; reflexivity. Qed.

(** The heights 62.5625 and 62.5, of ratio 1.001: the computed
    |ratio - 1| is below the double 0.001 and the image is copied, where
    exact arithmetic scales it to 121 by 101. *)
Lemma scale_ratio_1001 :
  let st := withPoints [pt 0 0; pt 0 62.5625] [pt 0 0; pt 0 62.5]
              (setStep SCALE (loaded (options initial))) in
  store (Binary64.applyScaling round64 st) !! 2%nat
    = Some {| width := 120; height := 100; commands := [DrawImage 1%nat 0 0] |} /\
  store (App.applyScaling st) !! 2%nat
    = Some {| width := 121; height := 101;
              commands := [DrawImageScaled 1%nat 0 0 121 101] |}.
Proof. vm_compute. split; reflexivity. Qed.

(** An anchor 2^-60 from the left edge: the computed distance to the
    right edge is 100 and the crops are 100 wide, where exact arithmetic
    gives 99. *)
Lemma crop_anchor_next_to_edge :
  let s := [photo 100 100; photo 120 100] in
  let pL := pt (1 # 2 ^ 60) 50 in
  let pR := pt 10 50 in
  widthOf (snd (Binary64.cropImagesAligned round64 0%nat 1%nat pL pR false s)) 2%nat = 100 /\
  widthOf (snd (ImageService.cropImagesAligned 0%nat 1%nat pL pR false s)) 2%nat = 99.
Proof. vm_compute. split; reflexivity. Qed.

End RoundToNearest.
